(** * Confirmed mammal species names from the NCBI taxonomy dump

    A shallow embedding of [mammal_scientific-name.py] and the properties
    its specification states about it.

    Conventions of the embedding:
    - a Python [str] is a [list ascii]; a character is its code point, and
      the development covers the code points U+0000 to U+00FF (Latin-1),
      a range closed under [str.lower];
    - a [dict] with integer keys is a [gmap Z _], a [set] of integers a
      [gset Z], a Python [list] a [list];
    - an unhandled exception is the [Raise] outcome of [result];
    - a text file is the list of its lines, as [for line in f] yields them;
    - the iteration order of a [set] is a parameter of [main]. *)

From Stdlib Require Import Ascii String ZArith.
From stdpp Require Import gmap list sorting relations.

Coercion list_ascii_of_string : string >-> list.

#[local] Set Warnings "-clear-no-such-hyp".

#[local] Open Scope string_scope.
#[local] Open Scope list_scope.
#[local] Open Scope stdpp_scope.
#[local] Open Scope Z_scope.

Abbreviation str := (list ascii).

(** ** Exceptions *)

Inductive exn : Type := IndexError | ValueError.

Inductive result (A : Type) : Type :=
| Ok (a : A)
| Raise (e : exn).
Arguments Ok {A} a.
Arguments Raise {A} e.

#[global] Instance result_ret : MRet result := λ A a, Ok a.
#[global] Instance result_bind : MBind result := λ A B f m,
  match m with
  | Ok a => f a
  | Raise e => Raise e
  end.

Definition is_Ok {A} (m : result A) : Prop := ∃ a, m = Ok a.
Definition is_Raise {A} (m : result A) : Prop := ∃ e, m = Raise e.

(** [xs[i]] on a list: [IndexError] out of range. *)
Definition index {A} (xs : list A) (i : nat) : result A :=
  match xs !! i with
  | Some x => Ok x
  | None => Raise IndexError
  end.

(** ** Characters (code points below 256) *)

Module Char.

Definition code (c : ascii) : N := N_of_ascii c.

Definition between (lo hi : N) (c : ascii) : bool :=
  ((lo <=? code c) && (code c <=? hi))%N.

Definition one (n : N) (c : ascii) : bool := (code c =? n)%N.

(** [[A-Z]] and [[a-z]] of the regular expressions. *)
Definition AZ (c : ascii) : bool := between 65 90 c.
Definition az (c : ascii) : bool := between 97 122 c.

(** [\d] of a [str] pattern and the digits [int()] reads: the decimal
    digits (category Nd), below 256 only [0-9]. *)
Definition isdecimal (c : ascii) : bool := between 48 57 c.

(** [c.isupper()]: the upper-case letters. *)
Definition isupper (c : ascii) : bool :=
  AZ c || between 192 214 c || between 216 222 c.

(** [c.islower()]: the lower-case letters, the ordinal indicators and
    the micro sign. *)
Definition islower (c : ascii) : bool :=
  az c || one 170 c || one 181 c || one 186 c
  || between 223 246 c || between 248 255 c.

(** [c.lower()]. *)
Definition lower (c : ascii) : ascii :=
  if isupper c then ascii_of_N (code c + 32) else c.

(** [c.isspace()], the white space of [str.split()] and [str.strip()]. *)
Definition isspace (c : ascii) : bool :=
  between 9 13 c || between 28 32 c || one 133 c || one 160 c.

(** [c.isalnum()]: letters, digits, superscript digits and fractions. *)
Definition isalnum (c : ascii) : bool :=
  isdecimal c || AZ c || az c
  || one 170 c || one 178 c || one 179 c || one 181 c || one 185 c || one 186 c
  || between 188 190 c
  || between 192 214 c || between 216 246 c || between 248 255 c.

(** [\w] of a [str] pattern, which decides where [\b] holds. *)
Definition isword (c : ascii) : bool := isalnum c || one 95 c.

Definition TAB : ascii := ascii_of_N 9.
Definition LF : ascii := ascii_of_N 10.

Definition eqb (c d : ascii) : bool := (code c =? code d)%N.

(** Every character of the model. *)
Definition all : list ascii := ascii_of_nat <$> seq 0 256.

End Char.

(** ** Strings *)

Module Str.

(** [s.lower()] *)
Definition lower (s : str) : str := Char.lower <$> s.

Fixpoint lstrip_by (p : ascii → bool) (s : str) : str :=
  match s with
  | c :: s' => if p c then lstrip_by p s' else s
  | [] => []
  end.

Definition rstrip_by (p : ascii → bool) (s : str) : str :=
  reverse (lstrip_by p (reverse s)).

(** [s.strip()] *)
Definition strip (s : str) : str :=
  rstrip_by Char.isspace (lstrip_by Char.isspace s).

(** [s.rstrip(chars)] *)
Definition rstrip (chars : str) (s : str) : str :=
  rstrip_by (λ c, existsb (Char.eqb c) chars) s.

(** [s.split()]: the maximal runs of characters that are not white space;
    [w] is the word being read. *)
Fixpoint split_ws_from (w : str) (s : str) : list str :=
  match s with
  | [] => match w with [] => [] | _ => [w] end
  | c :: s' =>
      if Char.isspace c
      then match w with [] => split_ws_from [] s' | _ => w :: split_ws_from [] s' end
      else split_ws_from (w ++ [c]) s'
  end.

Definition split_ws (s : str) : list str := split_ws_from [] s.

Fixpoint startswith (p s : str) : bool :=
  match p, s with
  | [], _ => true
  | a :: p', b :: s' => Char.eqb a b && startswith p' s'
  | _ :: _, [] => false
  end.

(** [s.split(sep)] for a non-empty [sep]: the occurrences of [sep] are
    taken from the left and do not overlap. [skip] counts the characters
    of an occurrence still to pass over, [field] is the field being read. *)
Fixpoint split_from (sep : str) (skip : nat) (field : str) (s : str) : list str :=
  match s with
  | [] => [field]
  | c :: s' =>
      match skip with
      | S k => split_from sep k field s'
      | O =>
          if startswith sep s
          then field :: split_from sep (pred (length sep)) [] s'
          else split_from sep 0 (field ++ [c]) s'
      end
  end.

Definition split (sep : str) (s : str) : list str := split_from sep 0 [] s.

(** [a < b] and [a <= b] on [str]: lexicographic on code points. *)
Fixpoint ltb (a b : str) : bool :=
  match a, b with
  | _, [] => false
  | [], _ :: _ => true
  | x :: a', y :: b' =>
      (Char.code x <? Char.code y)%N
      || ((Char.code x =? Char.code y)%N && ltb a' b')
  end.

Definition le (a b : str) : Prop := ltb b a = false.

#[global] Instance le_dec : RelDecision le.
Proof. intros a b. unfold le. apply _. Defined.

(** [xs.sort()] on a list of [str]: a stable sort by [<]. *)
Definition sort (xs : list str) : list str := merge_sort le xs.

End Str.

(** ** [int(s)] on a [str]

    White space around the number, an optional sign, then decimal digits
    with single underscores allowed between digits. [max_digits] is
    [sys.int_max_str_digits] (4300 by default from Python 3.11 on, absent
    before): a longer numeral raises [ValueError] too. *)

Module Int.

(** The white space [int()] passes over. *)
Definition isspace (c : ascii) : bool :=
  Char.between 9 13 c || Char.one 32 c || Char.one 133 c || Char.one 160 c.

Definition digit (c : ascii) : Z := Z.of_N (Char.code c) - 48.

(** The digits after the first one: [acc] is the value read so far, [n]
    the number of digits read, [us] tells that the last character was an
    underscore. *)
Fixpoint digits (acc : Z) (n : nat) (us : bool) (s : str) : option (Z * nat) :=
  match s with
  | [] => if us then None else Some (acc, n)
  | c :: s' =>
      if Char.isdecimal c then digits (10 * acc + digit c) (S n) false s'
      else if Char.one 95 c && negb us then digits acc n true s'
      else None
  end.

Definition unsigned (s : str) : option (Z * nat) :=
  match s with
  | c :: s' => if Char.isdecimal c then digits (digit c) 1 false s' else None
  | [] => None
  end.

Definition signed (s : str) : option (Z * nat) :=
  match s with
  | c :: s' =>
      if Char.one 45 c then (λ '(z, n), (- z, n)) <$> unsigned s'
      else if Char.one 43 c then unsigned s'
      else unsigned s
  | [] => None
  end.

Definition parse (max_digits : option nat) (s : str) : option Z :=
  match signed (Str.rstrip_by isspace (Str.lstrip_by isspace s)) with
  | Some (z, n) =>
      match max_digits with
      | Some m => if decide (n ≤ m)%nat then Some z else None
      | None => Some z
      end
  | None => None
  end.

Definition int (max_digits : option nat) (s : str) : result Z :=
  match parse max_digits s with
  | Some z => Ok z
  | None => Raise ValueError
  end.

End Int.

(** ** Regular expressions: the fragment of [re] the patterns use

    [re.search(pattern, s)] is truthy when the pattern matches at some
    position of [s]. A match is followed through the subject by the list
    of the positions it can end at; a position is the rest of the subject
    together with whether the character before it is a word character,
    which is what [\b] looks at. *)

Module Re.

Inductive regex : Type :=
| Eps                                               (* the empty pattern *)
| Chr (c : ascii)                                   (* a literal character *)
| Cls (f : ascii → bool)                            (* a class: [..], \d *)
| Rep (f : ascii → bool) (lo : nat) (hi : option nat) (* class{lo,hi} *)
| WordB                                             (* \b *)
| Cat (r1 r2 : regex)
| Alt (r1 r2 : regex).

Abbreviation pos := (bool * str)%type.

(** A literal string. *)
Fixpoint lit (s : str) : regex :=
  match s with
  | [] => Eps
  | [c] => Chr c
  | c :: s' => Cat (Chr c) (lit s')
  end.

(** [\b]: exactly one of the characters around the position is a word
    character; outside the subject there is none. *)
Definition boundary (p : pos) : bool :=
  xorb p.1 (match p.2 with c :: _ => Char.isword c | [] => false end).

(** The positions after [k] characters of the class, [lo <= k <= hi]. *)
Fixpoint rep (f : ascii → bool) (lo : nat) (hi : option nat) (before : bool)
    (s : str) : list pos :=
  (match lo with O => [(before, s)] | S _ => [] end)
  ++ match hi, s with
     | Some O, _ => []
     | _, [] => []
     | _, c :: s' =>
         if f c then rep f (pred lo) (pred <$> hi) (Char.isword c) s' else []
     end.

Fixpoint ends (r : regex) (p : pos) : list pos :=
  match r with
  | Eps => [p]
  | Chr c =>
      match p.2 with
      | d :: s' => if Char.eqb c d then [(Char.isword d, s')] else []
      | [] => []
      end
  | Cls f =>
      match p.2 with
      | d :: s' => if f d then [(Char.isword d, s')] else []
      | [] => []
      end
  | Rep f lo hi => rep f lo hi p.1 p.2
  | WordB => if boundary p then [p] else []
  | Cat r1 r2 => ends r1 p ≫= ends r2
  | Alt r1 r2 => ends r1 p ++ ends r2 p
  end.

Definition matches_at (r : regex) (p : pos) : bool :=
  match ends r p with [] => false | _ :: _ => true end.

Fixpoint search_from (r : regex) (before : bool) (s : str) : bool :=
  matches_at r (before, s)
  || match s with
     | c :: s' => search_from r (Char.isword c) s'
     | [] => false
     end.

(** [bool(re.search(r, s))] *)
Definition search (r : regex) (s : str) : bool := search_from r false s.

End Re.

(** ** The name validator *)

Import Re.

(** [exclude_patterns], in the order of the source. *)
Definition exclude_patterns : list regex :=
  [ Cat WordB (lit "sp.")                  (* \bsp\. *)
  ; Cat WordB (lit "cf.")                  (* \bcf\. *)
  ; Cat WordB (lit "aff.")                 (* \baff\. *)
  ; Cat WordB (Cat (lit "x") WordB)        (* \bx\b *)
  ; Cat WordB (Cat (lit "isolate") WordB)  (* \bisolate\b *)
  ; Cat WordB (Cat (lit "haplotype") WordB) (* \bhaplotype\b *)
  ; Cat WordB (lit "gen.")                 (* \bgen\. *)
  ; Cat WordB (Cat (lit "gen") WordB)      (* \bgen\b *)
  ; Cat WordB (Cat (lit "environmental") WordB) (* \benvironmental\b *)
  ; Cat WordB (Cat (lit "mixed") WordB)    (* \bmixed\b *)
  ; Cat WordB (lit "indet.")               (* \bindet\. *)
  ; lit "bold:"                            (* bold: *)
  ; Cls (λ c, Char.one 40 c || Char.one 41 c) (* [\(\)] *)
  ; Rep Char.isdecimal 4 (Some 4%nat)      (* \d{4} *)
  ; Cat (Rep Char.AZ 2 None)
        (Cat (lit "-") (Rep Char.isdecimal 4 (Some 4%nat))) (* [A-Z]{2,}-\d{4} *)
  ; Cat (Rep Char.AZ 3 None) (Rep Char.isdecimal 1 None)    (* [A-Z]{3,}\d+ *)
  ; Cat WordB (Cat (Alt (lit "complex") (lit "group")) WordB) (* \b(complex|group)\b *)
  ].

(** [for word in words[1:]: if not word[0].islower(): return False] and
    the [return True] after it. *)
Fixpoint check_rest (ws : list str) : result bool :=
  match ws with
  | [] => Ok true
  | word :: ws' =>
      c ← index word 0;
      if negb (Char.islower c) then Ok false else check_rest ws'
  end.

(** The structural rules on [words = name.split()]. *)
Definition check_words (words : list str) : result bool :=
  if (length words <? 2)%nat || (3 <? length words)%nat then Ok false
  else
    w0 ← index words 0;
    c0 ← index w0 0;
    if negb (Char.isupper c0) then Ok false
    else check_rest (drop 1 words).

(** The validator over a list of patterns. *)
Definition is_valid_with (patterns : list regex) (name : str) : result bool :=
  let name_lower := Str.lower name in
  if existsb (λ pattern, search pattern name_lower) patterns then Ok false
  else check_words (Str.split_ws name).

Definition is_valid_species_name (name : str) : result bool :=
  is_valid_with exclude_patterns name.

(** ** Loops

    [for x in xs: body] over a state, where the body may raise. *)

Fixpoint for_each {S A} (body : S → A → result S) (st : S) (xs : list A)
    : result S :=
  match xs with
  | [] => Ok st
  | x :: xs' => st' ← body st x; for_each body st' xs'
  end.

(** ** The loaders *)

(** The field separator: tab, pipe, tab. *)
Definition SEP : str := [Char.TAB; ascii_of_N 124; Char.TAB].

Record nodes : Type := Nodes {
  parent_dict : gmap Z Z;            (* tax_id -> parent_tax_id *)
  rank_dict : gmap Z str;            (* tax_id -> rank *)
  children_dict : gmap Z (list Z)    (* parent_tax_id -> [child_tax_ids] *)
}.

Definition no_nodes : nodes := Nodes ∅ ∅ ∅.

(** [children_dict[parent].append(child)] on the [defaultdict(list)]. *)
Definition append_child (parent child : Z) (d : gmap Z (list Z))
    : gmap Z (list Z) :=
  <[parent := default [] (d !! parent) ++ [child]]> d.

Section loaders.

Context (max_digits : option nat).

Definition load_nodes_line (st : nodes) (line : str) : result nodes :=
  let parts := Str.split SEP (Str.strip line) in
  p0 ← index parts 0;
  tax_id ← Int.int max_digits (Str.strip p0);
  p1 ← index parts 1;
  parent_tax_id ← Int.int max_digits (Str.strip p1);
  p2 ← index parts 2;
  let rank := Str.strip p2 in
  Ok (Nodes (<[tax_id := parent_tax_id]> (parent_dict st))
            (<[tax_id := rank]> (rank_dict st))
            (append_child parent_tax_id tax_id (children_dict st))).

Definition load_nodes (nodes_file : list str) : result nodes :=
  for_each load_nodes_line no_nodes nodes_file.

Definition load_names_line (names_dict : gmap Z str) (line : str)
    : result (gmap Z str) :=
  let parts := Str.split SEP (Str.strip line) in
  p0 ← index parts 0;
  tax_id ← Int.int max_digits (Str.strip p0);
  p1 ← index parts 1;
  let name := Str.strip p1 in
  p3 ← index parts 3;
  let name_class := Str.rstrip [Char.TAB; ascii_of_N 124] (Str.strip p3) in
  if decide (name_class = ("scientific name" : str))
  then Ok (<[tax_id := name]> names_dict)
  else Ok names_dict.

Definition load_names (names_file : list str) : result (gmap Z str) :=
  for_each load_names_line ∅ names_file.

End loaders.

(** ** The descendant collector

    The state of the [while queue:] loop. [pushed] is a ghost field: the
    identifiers put on the queue so far, the root first, in order. *)

Record bfs : Type := Bfs {
  descendants : gset Z;
  queue : list Z;
  pushed : list Z
}.

(** The body of [for child in children_dict[current]]. *)
Definition visit_child (st : bfs) (child : Z) : bfs :=
  if decide (child ∈ descendants st) then st
  else Bfs ({[child]} ∪ descendants st) (queue st ++ [child])
           (pushed st ++ [child]).

(** One iteration of the [while] loop; [None] when the queue is empty. *)
Definition bfs_step (children_dict : gmap Z (list Z)) (st : bfs) : option bfs :=
  match queue st with
  | [] => None
  | current :: rest =>
      let st' := Bfs (descendants st) rest (pushed st) in
      match children_dict !! current with
      | Some children => Some (foldl visit_child st' children)
      | None => Some st'
      end
  end.

(** The loop, as a relation between the state it starts in and the state
    it exits in. *)
Inductive bfs_loop (children_dict : gmap Z (list Z)) : bfs → bfs → Prop :=
| bfs_exit st :
    queue st = [] → bfs_loop children_dict st st
| bfs_iter st st1 st2 :
    bfs_step children_dict st = Some st1 →
    bfs_loop children_dict st1 st2 →
    bfs_loop children_dict st st2.

(** At most [fuel] iterations of the loop. *)
Fixpoint bfs_run (fuel : nat) (children_dict : gmap Z (list Z)) (st : bfs) : bfs :=
  match fuel with
  | O => st
  | S n =>
      match bfs_step children_dict st with
      | Some st' => bfs_run n children_dict st'
      | None => st
      end
  end.

(** The identifiers that occur in some list of children. *)
Definition mentioned (children_dict : gmap Z (list Z)) : gset Z :=
  ⋃ (list_to_set <$> (map_to_list children_dict).*2).

(** A number of iterations after which the loop has exited. *)
Definition bfs_bound (children_dict : gmap Z (list Z)) (st : bfs) : nat :=
  length (queue st) + size (mentioned children_dict ∖ descendants st).

Definition bfs_init (tax_id : Z) : bfs := Bfs ∅ [tax_id] [tax_id].

Definition bfs_final (tax_id : Z) (children_dict : gmap Z (list Z)) : bfs :=
  bfs_run (bfs_bound children_dict (bfs_init tax_id)) children_dict
          (bfs_init tax_id).

Definition get_all_descendants (tax_id : Z) (children_dict : gmap Z (list Z))
    : gset Z :=
  descendants (bfs_final tax_id children_dict).

(** ** The pipeline *)

Definition MAMMALIA_TAX_ID : Z := 40674.

Record species : Type := Species {
  all_mammal_species : list str;
  valid_mammal_species : list str
}.

(** The body of [for tax_id in descendants]. *)
Definition filter_species (rank_dict names_dict : gmap Z str) (acc : species)
    (tax_id : Z) : result species :=
  if decide (rank_dict !! tax_id = Some ("species" : str)) then
    let name := default ("Unknown" : str) (names_dict !! tax_id) in
    valid ← is_valid_species_name name;
    Ok (Species (all_mammal_species acc ++ [name])
                (if valid : bool then valid_mammal_species acc ++ [name]
                 else valid_mammal_species acc))
  else Ok acc.

(** What a run leaves: the two sorted sequences and the lines written to
    the output file. *)
Record outcome : Type := Outcome {
  all_sorted : list str;
  valid_sorted : list str;
  written : list str
}.

Section pipeline.

(** [max_digits] as for [int]; [iter s] is the order in which
    [for tax_id in s] goes through the set [s]. *)
Context (max_digits : option nat) (iter : gset Z → list Z).

Definition main (nodes_file names_file : list str) : result outcome :=
  nodes ← load_nodes max_digits nodes_file;
  names_dict ← load_names max_digits names_file;
  let descendants :=
    get_all_descendants MAMMALIA_TAX_ID (children_dict nodes) in
  found ← for_each (filter_species (rank_dict nodes) names_dict)
                   (Species [] []) (iter descendants);
  let all := Str.sort (all_mammal_species found) in
  let valid := Str.sort (valid_mammal_species found) in
  Ok (Outcome all valid ((λ name, name ++ [Char.LF]) <$> valid)).

End pipeline.

(** ** The statements of the specification *)

Module Spec.

(** *** The validator *)

(** Two characters that differ at most in letter case. *)
Definition same_letter (c d : ascii) : bool :=
  Char.eqb (Char.lower c) (Char.lower d).

(** A class matched case-insensitively: some character of the class
    differs from [d] at most in letter case. *)
Definition ci_class (f : ascii → bool) (d : ascii) : bool :=
  existsb (λ e, same_letter e d && f e) Char.all.

(** A pattern matched case-insensitively. *)
Fixpoint ci (r : regex) : regex :=
  match r with
  | Eps => Eps
  | Chr c => Cls (same_letter c)
  | Cls f => Cls (ci_class f)
  | Rep f lo hi => Rep (ci_class f) lo hi
  | WordB => WordB
  | Cat r1 r2 => Cat (ci r1) (ci r2)
  | Alt r1 r2 => Alt (ci r1) (ci r2)
  end.

Definition contains_ci (r : regex) (name : str) : bool := search (ci r) name.

(** "N contains none of the excluded patterns, matched case-insensitively". *)
Definition no_excluded_pattern (name : str) : Prop :=
  ∀ r, r ∈ exclude_patterns → contains_ci r name = false.

(** A word that starts with a character of the class [P]. *)
Definition starts_with (P : ascii → bool) (word : str) : Prop :=
  ∃ c w, word = c :: w ∧ P c = true.

(** "Exactly 2 or exactly 3 white-space separated words, the first word
    starts with an upper-case letter, every subsequent word starts with a
    lower-case letter". *)
Definition well_shaped (name : str) : Prop :=
  let words := Str.split_ws name in
  (length words = 2%nat ∨ length words = 3%nat)
  ∧ (∃ word, words !! 0%nat = Some word ∧ starts_with Char.isupper word)
  ∧ (∀ i word, (1 ≤ i)%nat → words !! i = Some word →
       starts_with Char.islower word).

Definition valid (name : str) : Prop :=
  well_shaped name ∧ no_excluded_pattern name.

(** The catalogue-code pattern [[A-Z]{3,}\d+]. *)
Definition catalogue_code : regex :=
  Cat (Rep Char.AZ 3 None) (Rep Char.isdecimal 1 None).

(** The year-code pattern [[A-Z]{2,}-\d{4}]. *)
Definition year_code : regex :=
  Cat (Rep Char.AZ 2 None) (Cat (lit "-") (Rep Char.isdecimal 4 (Some 4%nat))).

(** [exclude_patterns] without the two upper-case rules. *)
Definition reachable_patterns : list regex :=
  take 14 exclude_patterns ++ drop 16 exclude_patterns.

(** A pattern none of whose characters and classes tells letter case:
    matching it case-insensitively is matching it on the lower-cased
    subject. *)
Fixpoint caseless (r : regex) : bool :=
  match r with
  | Eps | WordB => true
  | Chr c => Char.eqb (Char.lower c) c
  | Cls f | Rep f _ _ =>
      forallb (λ d, Bool.eqb (ci_class f d) (f (Char.lower d))) Char.all
  | Cat r1 r2 | Alt r1 r2 => caseless r1 && caseless r2
  end.

(** A position of the subject, taken in the lower-cased subject. *)
Definition lower_pos (p : pos) : pos := (p.1, Str.lower p.2).

(** *** The descendant collector *)

(** [c] has the parent [p]: [c] is in the list of children of [p]. *)
Definition parent_link (children_dict : gmap Z (list Z)) (c p : Z) : Prop :=
  ∃ children, children_dict !! p = Some children ∧ c ∈ children.

(** A directed path of one or more parent links from [d] up to [r]. *)
Definition path_up (children_dict : gmap Z (list Z)) (d r : Z) : Prop :=
  tc (parent_link children_dict) d r.

(** The children that one pass of the inner loop puts on the queue: those
    not yet seen, each once, in the order of the list. *)
Fixpoint fresh (seen : gset Z) (children : list Z) : list Z :=
  match children with
  | [] => []
  | child :: rest =>
      if decide (child ∈ seen) then fresh seen rest
      else child :: fresh ({[child]} ∪ seen) rest
  end.

(** The invariant of the [while] loop started at [r]. *)
Record bfs_inv (children_dict : gmap Z (list Z)) (r : Z) (st : bfs) : Prop := {
  inv_sound : ∀ x, x ∈ descendants st → path_up children_dict x r;
  inv_queue : ∀ x, x ∈ queue st → x = r ∨ x ∈ descendants st;
  inv_closed : ∀ x, x = r ∨ x ∈ descendants st →
    x ∈ queue st ∨ ∀ c, parent_link children_dict c x → c ∈ descendants st;
  inv_pushed : ∃ appended,
    pushed st = r :: appended ∧ NoDup appended
    ∧ ∀ x, x ∈ appended ↔ x ∈ descendants st
}.

(** *** The loaders *)

Section records.

Context (max_digits : option nat).

(** The fields of a line: split on tab, pipe, tab. *)
Definition fields (line : str) : list str := Str.split SEP (Str.strip line).

(** The field at a position, read as an integer. *)
Definition int_field (fs : list str) (i : nat) : option Z :=
  fs !! i ≫= λ f, Int.parse max_digits (Str.strip f).


(** The node a line encodes: identifier, parent, rank. *)
Definition node_record (line : str) : option (Z * Z * str) :=
  let fs := fields line in
  tax_id ← int_field fs 0;
  parent ← int_field fs 1;
  rank ← fs !! 2%nat;
  Some (tax_id, parent, Str.strip rank).

(** The name record a line encodes: identifier, name, name class. *)
Definition name_record (line : str) : option (Z * str * str) :=
  let fs := fields line in
  tax_id ← int_field fs 0;
  name ← fs !! 1%nat;
  class ← fs !! 3%nat;
  Some (tax_id, Str.strip name,
        Str.rstrip [Char.TAB; ascii_of_N 124] (Str.strip class)).


(** The name class of a line as the specification words it: the fourth
    field with its trailing tabs and pipes stripped, and nothing else. *)
Definition worded_name_class (line : str) : option str :=
  Str.rstrip [Char.TAB; ascii_of_N 124] <$> fields line !! 3%nat.

End records.

(** The three assignments a node makes. *)
Definition add_node (st : nodes) (r : Z * Z * str) : nodes :=
  let '(tax_id, parent, rank) := r in
  Nodes (<[tax_id := parent]> (parent_dict st))
        (<[tax_id := rank]> (rank_dict st))
        (append_child parent tax_id (children_dict st)).

(** The assignment a name record makes. *)
Definition add_name (names_dict : gmap Z str) (r : Z * str * str) : gmap Z str :=
  let '(tax_id, name, class) := r in
  if decide (class = ("scientific name" : str))
  then <[tax_id := name]> names_dict else names_dict.

(** The parents, the ranks and the children the records give, in file
    order. *)
Definition parents_of (tax_id : Z) (rs : list (Z * Z * str)) : list Z :=
  omap (λ '(i, p, _), if decide (i = tax_id) then Some p else None) rs.
Definition ranks_of (tax_id : Z) (rs : list (Z * Z * str)) : list str :=
  omap (λ '(i, _, rank), if decide (i = tax_id) then Some rank else None) rs.
Definition children_of (parent : Z) (rs : list (Z * Z * str)) : list Z :=
  omap (λ '(i, p, _), if decide (p = parent) then Some i else None) rs.

(** The scientific names the records give for an identifier, in file
    order. *)
Definition scientific_names (tax_id : Z) (rs : list (Z * str * str)) : list str :=
  omap (λ '(i, name, class),
          if decide (i = tax_id ∧ class = ("scientific name" : str))
          then Some name else None) rs.

(** *** The pipeline *)

(** The name is accepted by the validator. *)
Definition validb (name : str) : bool :=
  match is_valid_species_name name with
  | Ok true => true
  | _ => false
  end.

(** The name under which an identifier is reported. *)
Definition name_of (names_dict : gmap Z str) (tax_id : Z) : str :=
  default ("Unknown" : str) (names_dict !! tax_id).

(** The identifier qualifies: its rank is "species". *)
Definition is_species (rank_dict : gmap Z str) (tax_id : Z) : Prop :=
  rank_dict !! tax_id = Some ("species" : str).

#[global] Instance is_species_dec rank_dict tax_id :
  Decision (is_species rank_dict tax_id).
Proof. unfold is_species. apply _. Defined.

(** The "all species" sequence before it is sorted. *)
Definition species_names (rank_dict names_dict : gmap Z str) (ids : list Z)
    : list str :=
  name_of names_dict <$> filter (is_species rank_dict) ids.

(** The number of times a name occurs in a sequence. *)
Definition occurrences (name : str) (names : list str) : nat :=
  length (filter (name =.) names).

(** The identifiers of a set that qualify and carry the name, each once. *)
Definition qualifying (rank_dict names_dict : gmap Z str) (name : str)
    (ids : gset Z) : list Z :=
  filter (λ d, is_species rank_dict d ∧ name_of names_dict d = name)
         (elements ids).

(** [iter] goes through every set once, in some order. *)
Definition set_order (iter : gset Z → list Z) : Prop :=
  ∀ s, iter s ≡ₚ elements s.

End Spec.

(** ** Auxiliary notions *)

Module Aux.

(** Whether the character before a position is a word character, when
    the position is reached after [pre] from a position where it was
    [before]. *)
Definition before_of (before : bool) (pre : str) : bool :=
  match last pre with
  | Some c => Char.isword c
  | None => before
  end.

(** The rest of a subject does not start with a word character. *)
Definition starts_nonword (rest : str) : Prop :=
  match rest with
  | [] => True
  | c :: _ => Char.isword c = false
  end.

(** The words that mark a provisional name, as the patterns spell them. *)
Definition provisional_words : list str :=
  [ "sp." : str; "cf." : str; "aff." : str; "x" : str; "isolate" : str;
    "haplotype" : str; "gen." : str; "gen" : str; "environmental" : str;
    "mixed" : str; "indet." : str; "complex" : str; "group" : str ].

(** The exception a line of the node file raises, none when the line is
    read: the identifier is converted first, then the parent field is
    fetched and converted, then the rank field is fetched. *)
Definition node_error (max_digits : option nat) (line : str) : option exn :=
  let fs := Spec.fields line in
  if Spec.int_field max_digits fs 0 is None then Some ValueError
  else if (length fs <? 2)%nat then Some IndexError
  else if Spec.int_field max_digits fs 1 is None then Some ValueError
  else if (length fs <? 3)%nat then Some IndexError
  else None.

(** The exception a line of the name file raises: the identifier is
    converted first, then the name and the name class are fetched. *)
Definition name_error (max_digits : option nat) (line : str) : option exn :=
  let fs := Spec.fields line in
  if Spec.int_field max_digits fs 0 is None then Some ValueError
  else if (length fs <? 4)%nat then Some IndexError
  else None.

(** The identifiers of the records of a node file, in file order. *)
Definition ids (rs : list (Z * Z * str)) : list Z := rs.*1.*1.

(** [c] has the recorded parent [p]. *)
Definition recorded_parent (parent_dict : gmap Z Z) (c p : Z) : Prop :=
  parent_dict !! c = Some p.

End Aux.

(** ** Example files *)

Module Examples.

(** A line of a dump file: the fields, each followed by tab and pipe. *)
Definition row (fields : list str) : str :=
  foldr (λ f acc, f ++ [Char.TAB; ascii_of_N 124] ++
                  match acc with [] => [Char.LF] | _ => Char.TAB :: acc end)
        [] fields.

Definition nodes_file : list str :=
  [ row ["1" : str; "1" : str; "no rank" : str; "" : str];
    row ["40674" : str; "1" : str; "class" : str; "" : str];
    row ["9689" : str; "40674" : str; "species" : str; "PL" : str] ].

Definition names_file : list str :=
  [ row ["9689" : str; "Felis leo" : str; "" : str; "synonym" : str];
    row ["9689" : str; "Leo leo" : str; "" : str; "scientific name" : str];
    row ["9689" : str; "Panthera leo" : str; "" : str; "scientific name" : str] ].

(** Two species, one of them with a provisional name. *)
Definition mixed_nodes_file : list str :=
  [ row ["40674" : str; "1" : str; "class" : str; "" : str];
    row ["10090" : str; "40674" : str; "species" : str; "MM" : str];
    row ["10095" : str; "40674" : str; "species" : str; "" : str] ].

Definition mixed_names_file : list str :=
  [ row ["10095" : str; "Mus sp. 1" : str; "" : str; "scientific name" : str];
    row ["10090" : str; "Mus musculus" : str; "" : str; "scientific name" : str] ].

Definition mixed_outcome : outcome :=
  Outcome ["Mus musculus" : str; "Mus sp. 1" : str] ["Mus musculus" : str]
          [("Mus musculus" : str) ++ [Char.LF]].


(** A name line whose class field starts with a space. *)
Definition padded_names_file : list str :=
  [ row ["9689" : str; "Panthera leo" : str; "" : str;
         " scientific name" : str] ].


End Examples.

(** * Properties *)

(** ** Characters *)

Lemma all_chars (c : ascii) : c ∈ Char.all.
Proof.
  apply list_elem_of_In.
  destruct c as [[] [] [] [] [] [] [] []]; vm_compute; tauto.
Qed.

Lemma char_forall (P : ascii → bool) :
  forallb P Char.all = true → ∀ c, P c = true.
Proof.
  intros H c. rewrite forallb_forall in H. apply H, list_elem_of_In, all_chars.
Qed.

Lemma eqb_eq (c d : ascii) : Char.eqb c d = true ↔ c = d.
Proof.
  unfold Char.eqb, Char.code. rewrite N.eqb_eq. split; [|by intros ->].
  intros H. by rewrite <- (ascii_N_embedding c), <- (ascii_N_embedding d), H.
Qed.

Lemma lower_not_AZ (c : ascii) : Char.AZ (Char.lower c) = false.
Proof.
  apply negb_true_iff. revert c.
  apply (char_forall (λ c, negb (Char.AZ (Char.lower c)))). by vm_compute.
Qed.

Lemma isword_lower (c : ascii) : Char.isword (Char.lower c) = Char.isword c.
Proof.
  apply Bool.eqb_prop. revert c.
  apply (char_forall (λ c, Bool.eqb (Char.isword (Char.lower c)) (Char.isword c))).
  by vm_compute.
Qed.

(** ** Words *)

Lemma split_ws_from_nonempty (w : str) (s : str) (x : str) :
  x ∈ Str.split_ws_from w s → x ≠ [].
Proof.
  revert w. induction s as [|c s IH]; intros w; simpl.
  - destruct w; [by intros ?%elem_of_nil|].
    intros ->%list_elem_of_singleton. done.
  - destruct (Char.isspace c).
    + destruct w as [|a w]; [apply IH|].
      intros [->|?]%elem_of_cons; [done|by eapply IH].
    + apply IH.
Qed.

Lemma split_ws_nonempty (s : str) (x : str) : x ∈ Str.split_ws s → x ≠ [].
Proof. apply split_ws_from_nonempty. Qed.

Lemma index_head (w : str) : w ≠ [] → ∃ c w', w = c :: w' ∧ index w 0 = Ok c.
Proof. destruct w as [|c w']; [done|]. by exists c, w'. Qed.

Lemma check_rest_total (ws : list str) :
  (∀ x, x ∈ ws → x ≠ []) → is_Ok (check_rest ws).
Proof.
  induction ws as [|w ws IH]; intros Hne; simpl; [by exists true|].
  destruct (index_head w) as (c & w' & -> & ->); [apply Hne; left|]. simpl.
  destruct (Char.islower c); simpl; [|by exists false].
  apply IH. intros x Hx. apply Hne. by right.
Qed.

Lemma check_words_total (words : list str) :
  (∀ x, x ∈ words → x ≠ []) → is_Ok (check_words words).
Proof.
  intros Hne. unfold check_words.
  destruct (_ || _) eqn:Hlen; [by exists false|].
  destruct words as [|w0 ws]; [done|]. simpl.
  destruct (index_head w0) as (c & w' & -> & ->); [apply Hne; left|]. simpl.
  destruct (Char.isupper c); simpl; [|by exists false].
  rewrite drop_0. apply check_rest_total. intros x Hx. apply Hne. by right.
Qed.

Lemma is_valid_with_total (patterns : list regex) (name : str) :
  is_Ok (is_valid_with patterns name).
Proof.
  unfold is_valid_with. destruct (existsb _ _); [by exists false|].
  apply check_words_total, split_ws_nonempty.
Qed.

(** C10. The validator returns a boolean on every string and never indexes
    out of range: the number of words is checked first and no word of
    [name.split()] is empty. The empty string, a string of white space and
    the placeholder "Unknown" are classified as not valid. *)
Theorem is_valid_species_name_total :
  (∀ name : str, ∃ b : bool, is_valid_species_name name = Ok b)
  ∧ (∀ words : list str, (length words < 2)%nat → check_words words = Ok false)
  ∧ is_valid_species_name "" = Ok false
  ∧ is_valid_species_name "   " = Ok false
  ∧ is_valid_species_name "Unknown" = Ok false.
Proof.
  split; [intros name; apply is_valid_with_total|].
  split; [|by vm_compute].
  intros words Hlen. unfold check_words.
  by destruct words as [|? [|? ?]]; simpl in *; [..|lia].
Qed.

(** C8. The validator on the examples of the specification. *)
Theorem is_valid_species_name_examples :
  is_valid_species_name "Panthera leo" = Ok true
  ∧ is_valid_species_name "Panthera leo sp." = Ok false
  ∧ is_valid_species_name "Canis lupus (isolate 12)" = Ok false
  ∧ is_valid_species_name "Mus musculus BOLD:AAA1234" = Ok false
  ∧ is_valid_species_name "Homo sapiens neanderthalensis" = Ok true.
Proof. by vm_compute. Qed.

(** ** The two upper-case rules *)

Lemma rep_AZ_lower (n : nat) (hi : option nat) (before : bool) (s : str) :
  rep Char.AZ (S n) hi before (Str.lower s) = [].
Proof.
  destruct s as [|c s]; simpl; [by destruct hi as [[]|]|].
  rewrite lower_not_AZ. by destruct hi as [[]|].
Qed.

Lemma search_from_AZ_lower (n : nat) (hi : option nat) (r : regex)
    (before : bool) (s : str) :
  search_from (Cat (Rep Char.AZ (S n) hi) r) before (Str.lower s) = false.
Proof.
  revert before. induction s as [|c s IH]; intros before.
  - simpl. unfold matches_at. simpl. by destruct hi as [[]|].
  - change (Str.lower (c :: s)) with (Char.lower c :: Str.lower s).
    simpl. rewrite IH, orb_false_r.
    unfold matches_at. cbn [ends fst snd].
    change (Char.lower c :: Str.lower s) with (Str.lower (c :: s)).
    by rewrite rep_AZ_lower.
Qed.

Lemma exclude_patterns_split :
  exclude_patterns
  = take 14 exclude_patterns
    ++ [Spec.year_code; Spec.catalogue_code] ++ drop 16 exclude_patterns.
Proof. reflexivity. Qed.

(** C3. The patterns [[A-Z]{2,}-\d{4}] and [[A-Z]{3,}\d+] match no
    lower-cased name, and the validator equals the validator without these
    two rules. *)
Theorem uppercase_rules_unreachable (name : str) :
  search Spec.year_code (Str.lower name) = false
  ∧ search Spec.catalogue_code (Str.lower name) = false
  ∧ is_valid_species_name name = is_valid_with Spec.reachable_patterns name.
Proof.
  assert (Hy : search Spec.year_code (Str.lower name) = false)
    by apply search_from_AZ_lower.
  assert (Hc : search Spec.catalogue_code (Str.lower name) = false)
    by apply search_from_AZ_lower.
  split_and!; [done..|].
  unfold is_valid_species_name, is_valid_with, Spec.reachable_patterns.
  rewrite exclude_patterns_split at 1.
  rewrite !existsb_app. cbn [existsb]. by rewrite Hy, Hc.
Qed.

(** ** Matching case-insensitively and matching the lower-cased subject *)

Lemma rep_ci_lower (f : ascii → bool) (lo : nat) (hi : option nat)
    (before : bool) (s : str) :
  (∀ d, Spec.ci_class f d = f (Char.lower d)) →
  rep f lo hi before (Str.lower s)
  = Spec.lower_pos <$> rep (Spec.ci_class f) lo hi before s.
Proof.
  intros Hf. revert lo hi before.
  induction s as [|c s IH]; intros lo hi before.
  - simpl. destruct lo, hi as [[]|]; reflexivity.
  - change (Str.lower (c :: s)) with (Char.lower c :: Str.lower s).
    cbn [rep]. rewrite fmap_app, Hf, isword_lower. f_equal.
    + by destruct lo.
    + destruct hi as [[|h]|]; [done|..];
        (destruct (f (Char.lower c)); [apply IH|done]).
Qed.

Lemma ends_ci_lower (r : regex) (p : pos) :
  Spec.caseless r = true →
  ends r (Spec.lower_pos p) = Spec.lower_pos <$> ends (Spec.ci r) p.
Proof.
  revert p. induction r as [|c|f|f lo hi| |r1 IH1 r2 IH2|r1 IH1 r2 IH2];
    intros [before s] Hr; cbn [Spec.caseless] in Hr.
  - reflexivity.
  - apply eqb_eq in Hr. destruct s as [|d s]; [done|].
    cbn. unfold Spec.same_letter. rewrite Hr, isword_lower.
    by destruct (Char.eqb c (Char.lower d)).
  - destruct s as [|d s]; [done|].
    pose proof (char_forall _ Hr d) as Hd%Bool.eqb_prop.
    unfold Spec.lower_pos. cbn [ends Spec.ci fst snd Str.lower fmap list_fmap].
    rewrite Hd, isword_lower. by destruct (f (Char.lower d)).
  - cbn. apply rep_ci_lower. intros d.
    by pose proof (char_forall _ Hr d) as Hd%Bool.eqb_prop.
  - cbn [ends Spec.ci]. unfold boundary, Spec.lower_pos. cbn [fst snd].
    destruct s as [|c s]; [by destruct before|].
    change (Str.lower (c :: s)) with (Char.lower c :: Str.lower s).
    cbn [fst]. rewrite isword_lower. by destruct (xorb _ _).
  - apply andb_true_iff in Hr as [Hr1 Hr2].
    cbn [ends Spec.ci]. rewrite IH1 by done.
    induction (ends (Spec.ci r1) (before, s)) as [|q qs IHq]; [done|].
    cbn. rewrite fmap_app, <- IH2 by done. f_equal. apply IHq.
  - apply andb_true_iff in Hr as [Hr1 Hr2].
    cbn [ends Spec.ci]. by rewrite fmap_app, IH1, IH2.
Qed.

Lemma search_from_ci_lower (r : regex) (before : bool) (s : str) :
  Spec.caseless r = true →
  search_from r before (Str.lower s) = search_from (Spec.ci r) before s.
Proof.
  intros Hr. revert before. induction s as [|c s IH]; intros before.
  - cbn. unfold matches_at.
    change (before, @nil ascii) with (Spec.lower_pos (before, [])).
    rewrite ends_ci_lower by done. by destruct (ends _ _).
  - change (Str.lower (c :: s)) with (Char.lower c :: Str.lower s).
    cbn [search_from]. rewrite isword_lower, IH. f_equal.
    unfold matches_at.
    change (before, Char.lower c :: Str.lower s)
      with (Spec.lower_pos (before, c :: s)).
    rewrite ends_ci_lower by done. by destruct (ends _ _).
Qed.

Lemma contains_ci_lower (r : regex) (name : str) :
  Spec.caseless r = true →
  Spec.contains_ci r name = search r (Str.lower name).
Proof. intros Hr. symmetry. by apply search_from_ci_lower. Qed.

Lemma reachable_patterns_caseless :
  forallb Spec.caseless Spec.reachable_patterns = true.
Proof. by vm_compute. Qed.

(** ** Where a match can end *)

Lemma rep_suffix (f : ascii → bool) (lo : nat) (hi : option nat)
    (before : bool) (s : str) (q : pos) :
  q ∈ rep f lo hi before s → q.2 `suffix_of` s.
Proof.
  revert lo hi before. induction s as [|c s IH]; intros lo hi before; cbn [rep].
  - rewrite elem_of_app. intros [Hq|Hq].
    + destruct lo; [|by apply elem_of_nil in Hq].
      by apply list_elem_of_singleton in Hq as ->.
    + destruct hi as [[]|]; by apply elem_of_nil in Hq.
  - rewrite elem_of_app. intros [Hq|Hq].
    + destruct lo; [|by apply elem_of_nil in Hq].
      by apply list_elem_of_singleton in Hq as ->.
    + apply suffix_cons_r.
      destruct hi as [[|h]|]; [by apply elem_of_nil in Hq|..];
        (destruct (f c); [by eapply IH|by apply elem_of_nil in Hq]).
Qed.

Lemma ends_suffix (r : regex) (p q : pos) :
  q ∈ ends r p → q.2 `suffix_of` p.2.
Proof.
  revert p q. induction r as [|c|f|f lo hi| |r1 IH1 r2 IH2|r1 IH1 r2 IH2];
    intros [before s] q; cbn [ends fst snd].
  - by intros ->%list_elem_of_singleton.
  - destruct s as [|d s]; [by intros ?%elem_of_nil|].
    destruct (Char.eqb c d); [|by intros ?%elem_of_nil].
    intros ->%list_elem_of_singleton. by apply suffix_cons_r.
  - destruct s as [|d s]; [by intros ?%elem_of_nil|].
    destruct (f d); [|by intros ?%elem_of_nil].
    intros ->%list_elem_of_singleton. by apply suffix_cons_r.
  - apply rep_suffix.
  - destruct (boundary _); [|by intros ?%elem_of_nil].
    by intros ->%list_elem_of_singleton.
  - intros (q1 & Hq & Hq1)%list_elem_of_bind.
    etrans; [by eapply IH2|]. by apply (IH1 (before, s)).
  - intros [Hq|Hq]%elem_of_app; [by apply (IH1 (before, s))|by apply (IH2 (before, s))].
Qed.

Lemma matches_at_elem (r : regex) (p : pos) :
  matches_at r p = true ↔ ∃ q, q ∈ ends r p.
Proof.
  unfold matches_at. destruct (ends r p) as [|q qs].
  - split; [done|]. by intros [q ?%elem_of_nil].
  - split; [|done]. intros _. exists q. left.
Qed.

Lemma matches_at_cat (r1 r2 : regex) (p : pos) :
  matches_at (Cat r1 r2) p = true →
  ∃ q, q ∈ ends r1 p ∧ matches_at r2 q = true.
Proof.
  intros [q' (q & Hq' & Hq)%list_elem_of_bind]%matches_at_elem.
  exists q. split; [done|]. apply matches_at_elem. by exists q'.
Qed.

Lemma search_from_inv (r : regex) (before : bool) (s : str) :
  search_from r before s = true →
  ∃ q, q.2 `suffix_of` s ∧ matches_at r q = true.
Proof.
  revert before. induction s as [|c s IH]; intros before; cbn [search_from].
  - rewrite orb_false_r. intros H. by exists (before, []).
  - intros [H|H]%orb_true_iff; [by exists (before, c :: s)|].
    destruct (IH _ H) as (q & Hq & Hm). exists q. split; [|done].
    by apply suffix_cons_r.
Qed.

Lemma matches_at_rep_before (f : ascii → bool) (lo : nat) (hi : option nat)
    (b b' : bool) (s : str) :
  matches_at (Rep f lo hi) (b, s) = matches_at (Rep f lo hi) (b', s).
Proof. unfold matches_at. cbn [ends fst snd]. by destruct lo, s. Qed.

Lemma search_from_rep_intro (f : ascii → bool) (lo : nat) (hi : option nat)
    (before : bool) (s : str) (q : pos) :
  q.2 `suffix_of` s → matches_at (Rep f lo hi) q = true →
  search_from (Rep f lo hi) before s = true.
Proof.
  destruct q as [b' s']. cbn [snd]. intros Hsuf Hm. revert before.
  induction s as [|c s IH]; intros before; cbn [search_from].
  - apply suffix_nil_inv in Hsuf as ->.
    by rewrite orb_false_r, (matches_at_rep_before _ _ _ _ b').
  - destruct s' as [|x s'].
    { rewrite IH by apply suffix_nil. apply orb_true_r. }
    apply suffix_cons_inv in Hsuf as [[= -> ->]|Hsuf].
    + by rewrite (matches_at_rep_before _ _ _ _ b'), Hm.
    + rewrite IH by done. apply orb_true_r.
Qed.

(** A year code contains a run of four digits. *)
Lemma year_code_four_digits (name : str) :
  Spec.contains_ci Spec.year_code name = true →
  Spec.contains_ci (Rep Char.isdecimal 4 (Some 4%nat)) name = true.
Proof.
  unfold Spec.contains_ci, search.
  intros (q & Hq & Hm)%search_from_inv.
  change (Spec.ci Spec.year_code) with
    (Cat (Rep (Spec.ci_class Char.AZ) 2 None)
       (Cat (Cls (Spec.same_letter "-"))
          (Rep (Spec.ci_class Char.isdecimal) 4 (Some 4%nat)))) in Hm.
  apply matches_at_cat in Hm as (q1 & Hq1 & Hm).
  apply matches_at_cat in Hm as (q2 & Hq2 & Hm).
  eapply search_from_rep_intro; [|exact Hm].
  etrans; [by eapply ends_suffix|]. etrans; [by eapply ends_suffix|]. done.
Qed.

(** ** The structural rules *)

Lemma check_rest_true (ws : list str) :
  check_rest ws = Ok true ↔ Forall (Spec.starts_with Char.islower) ws.
Proof.
  induction ws as [|[|c w] ws IH]; cbn [check_rest].
  - split; [by constructor|done].
  - split; [done|]. by intros [(? & ? & ? & ?) _]%Forall_cons.
  - cbn. destruct (Char.islower c) eqn:Hc; cbn.
    + rewrite IH. split.
      * intros H. constructor; [|done]. by exists c, w.
      * by intros [_ ?]%Forall_cons.
    + split; [done|]. intros [(? & ? & [= <- _] & ?) _]%Forall_cons. congruence.
Qed.

Lemma check_words_true (words : list str) :
  check_words words = Ok true ↔
  (length words = 2%nat ∨ length words = 3%nat)
  ∧ (∃ word, words !! 0%nat = Some word ∧ Spec.starts_with Char.isupper word)
  ∧ (∀ i word, (1 ≤ i)%nat → words !! i = Some word →
       Spec.starts_with Char.islower word).
Proof.
  unfold check_words.
  destruct (_ || _) eqn:Hlen.
  { split; [done|]. intros [Hl _].
    apply orb_true_iff in Hlen as [H%Nat.ltb_lt|H%Nat.ltb_lt]; lia. }
  apply orb_false_iff in Hlen as [H1%Nat.ltb_ge H2%Nat.ltb_ge].
  destruct words as [|w0 ws]; [simpl in *; lia|].
  assert (Hrest : (∀ i word, (1 ≤ i)%nat → (w0 :: ws) !! i = Some word →
                     Spec.starts_with Char.islower word)
                  ↔ Forall (Spec.starts_with Char.islower) ws).
  { rewrite Forall_lookup. split.
    - intros H i x Hx. apply (H (S i)); [lia|done].
    - intros H [|i] x ? Hx; [lia|]. by apply (H i). }
  rewrite Hrest. cbn [index lookup list_lookup mbind result_bind].
  destruct w0 as [|c w].
  { cbn. split; [done|]. by intros (_ & (? & [= <-] & ? & ? & ? & _) & _). }
  cbn. destruct (Char.isupper c) eqn:Hc; cbn.
  - rewrite drop_0, check_rest_true. split.
    + intros H. split_and!; [simpl in *; lia| |done].
      exists (c :: w). split; [done|]. by exists c, w.
    + by intros (_ & _ & ?).
  - split; [done|]. intros (_ & (? & [= <-] & ? & ? & [= <- _] & ?) & _).
    congruence.
Qed.

(** ** The validator and the validity of the specification *)

Lemma elem_of_exclude_patterns (r : regex) :
  r ∈ exclude_patterns ↔
  r ∈ Spec.reachable_patterns ∨ r = Spec.year_code ∨ r = Spec.catalogue_code.
Proof.
  rewrite exclude_patterns_split at 1. unfold Spec.reachable_patterns.
  rewrite !elem_of_app, !elem_of_cons, elem_of_nil. tauto.
Qed.

Lemma reachable_caseless (r : regex) :
  r ∈ Spec.reachable_patterns → Spec.caseless r = true.
Proof.
  intros Hr. pose proof reachable_patterns_caseless as H.
  rewrite forallb_forall in H. by apply H, list_elem_of_In.
Qed.

Lemma existsb_false {A} (f : A → bool) (l : list A) :
  existsb f l = false ↔ ∀ x, x ∈ l → f x = false.
Proof.
  induction l as [|a l IH]; cbn [existsb].
  - split; [by intros _ x ?%elem_of_nil|done].
  - rewrite orb_false_iff, IH. split.
    + intros [Ha Hl] x [->|Hx]%elem_of_cons; auto.
    + intros H. split; [apply H; left|intros x Hx; apply H; by right].
Qed.

Lemma no_pattern_matches_lower (name : str) :
  existsb (λ pattern, search pattern (Str.lower name)) exclude_patterns = false
  ↔ ∀ r, r ∈ Spec.reachable_patterns → Spec.contains_ci r name = false.
Proof.
  rewrite existsb_false. split.
  - intros H r Hr. rewrite contains_ci_lower by by apply reachable_caseless.
    apply H, elem_of_exclude_patterns. by left.
  - intros H r [Hr|[->| ->]]%elem_of_exclude_patterns.
    + rewrite <- contains_ci_lower by by apply reachable_caseless. by apply H.
    + apply search_from_AZ_lower.
    + apply search_from_AZ_lower.
Qed.

Lemma no_excluded_pattern_reachable (name : str) :
  Spec.contains_ci Spec.catalogue_code name = false →
  Spec.no_excluded_pattern name
  ↔ ∀ r, r ∈ Spec.reachable_patterns → Spec.contains_ci r name = false.
Proof.
  intros Hcat. unfold Spec.no_excluded_pattern. split.
  - intros H r Hr. apply H, elem_of_exclude_patterns. by left.
  - intros H r [Hr|[->| ->]]%elem_of_exclude_patterns; [by apply H| |done].
    apply not_true_is_false. intros Hy%year_code_four_digits.
    rewrite H in Hy; [done|].
    unfold Spec.reachable_patterns. apply elem_of_app. left.
    apply list_elem_of_lookup. by exists 13%nat.
Qed.

(** What the validator computes, on every name: the structural rules and
    no pattern matching the lower-cased name. *)
Lemma is_valid_species_name_lower (name : str) :
  is_valid_species_name name = Ok true
  ↔ Spec.well_shaped name
    ∧ ∀ r, r ∈ exclude_patterns → search r (Str.lower name) = false.
Proof.
  unfold Spec.well_shaped. rewrite <- check_words_true, <- existsb_false.
  unfold is_valid_species_name, is_valid_with.
  destruct (existsb _ _); [|tauto].
  split; [done|]. by intros [_ ?].
Qed.

(** C1. The validator returns true on "FMNH1 leo", a name that contains
    a catalogue code, three upper-case letters directly followed by a
    digit, and so one of the excluded patterns: the rule for such codes is
    tested on the lower-cased name, where it matches nothing. *)
Lemma catalogue_code_accepted :
  is_valid_species_name "FMNH1 leo" = Ok true ∧ ¬ Spec.valid "FMNH1 leo".
Proof.
  split; [by vm_compute|]. intros [_ H].
  assert (Hin : Spec.catalogue_code ∈ exclude_patterns)
    by (apply elem_of_exclude_patterns; auto).
  apply H in Hin. by vm_compute in Hin.
Qed.

(** On the names of the model (code points below 256) with no run of
    three or more letters [A-Z], in either case, directly followed by a
    digit, the validator returns true if and only if the name has exactly
    2 or 3 words, the first word starts with an upper-case letter, every
    later word with a lower-case letter, and the name contains none of the
    excluded patterns matched case-insensitively. *)
Theorem is_valid_species_name_iff (name : str) :
  Spec.contains_ci Spec.catalogue_code name = false →
  is_valid_species_name name = Ok true ↔ Spec.valid name.
Proof.
  intros Hcat. unfold Spec.valid, Spec.well_shaped.
  rewrite (no_excluded_pattern_reachable name Hcat).
  rewrite <- no_pattern_matches_lower, <- check_words_true.
  unfold is_valid_species_name, is_valid_with.
  destruct (existsb _ _); [|tauto].
  split; [done|]. by intros [_ ?].
Qed.

Lemma is_valid_species_name_iff_witness :
  Spec.contains_ci Spec.catalogue_code "Panthera leo" = false
  ∧ (is_valid_species_name "Panthera leo" = Ok true ↔ Spec.valid "Panthera leo").
Proof.
  split; [by vm_compute|].
  apply (is_valid_species_name_iff "Panthera leo"). by vm_compute.
Defined.

(** ** The descendant collector *)

Section descendants.

Context (children_dict : gmap Z (list Z)).

Lemma elem_of_mentioned (p c : Z) (children : list Z) :
  children_dict !! p = Some children → c ∈ children →
  c ∈ mentioned children_dict.
Proof.
  intros Hp Hc. unfold mentioned. apply elem_of_union_list.
  exists (list_to_set children). split; [|by apply elem_of_list_to_set].
  apply list_elem_of_fmap. exists children. split; [done|].
  apply list_elem_of_fmap. exists (p, children). split; [done|].
  by apply elem_of_map_to_list.
Qed.

Lemma fresh_spec (seen : gset Z) (children : list Z) :
  NoDup (Spec.fresh seen children)
  ∧ ∀ x, x ∈ Spec.fresh seen children ↔ x ∈ children ∧ x ∉ seen.
Proof.
  revert seen. induction children as [|c l IH]; intros seen; cbn [Spec.fresh].
  - split; [constructor|]. intros x. rewrite elem_of_nil. tauto.
  - destruct (decide (c ∈ seen)) as [Hc|Hc].
    + destruct (IH seen) as [Hnd Hin]. split; [done|].
      intros x. rewrite Hin, elem_of_cons. set_solver.
    + destruct (IH ({[c]} ∪ seen)) as [Hnd Hin]. split.
      * constructor; [|done]. rewrite Hin. set_solver.
      * intros x. rewrite !elem_of_cons, Hin.
        destruct (decide (x = c)) as [->|]; set_solver.
Qed.

Lemma foldl_visit_child (st : bfs) (children : list Z) :
  foldl visit_child st children
  = Bfs (descendants st ∪ list_to_set children)
        (queue st ++ Spec.fresh (descendants st) children)
        (pushed st ++ Spec.fresh (descendants st) children).
Proof.
  revert st. induction children as [|c l IH]; intros [d q p];
    cbn [foldl Spec.fresh descendants queue pushed list_to_set].
  - rewrite !app_nil_r. f_equal. set_solver.
  - rewrite IH. unfold visit_child. cbn [descendants queue pushed].
    destruct (decide (c ∈ d)) as [Hc|Hc]; cbn [descendants queue pushed].
    + f_equal. set_solver.
    + rewrite <- !app_assoc. f_equal. set_solver.
Qed.

(** What one iteration of the loop does. *)
Lemma bfs_step_spec (st st' : bfs) :
  bfs_step children_dict st = Some st' →
  ∃ current rest children,
    queue st = current :: rest
    ∧ children = default [] (children_dict !! current)
    ∧ st' = Bfs (descendants st ∪ list_to_set children)
                (rest ++ Spec.fresh (descendants st) children)
                (pushed st ++ Spec.fresh (descendants st) children).
Proof.
  unfold bfs_step. destruct (queue st) as [|current rest] eqn:Hq; [done|].
  intros Hst. exists current, rest, (default [] (children_dict !! current)).
  split_and!; [done..|].
  destruct (children_dict !! current) as [children|]; simplify_eq; cbn [default].
  - by rewrite foldl_visit_child.
  - cbn [Spec.fresh list_to_set]. rewrite !app_nil_r. f_equal. set_solver.
Qed.

Lemma default_children_mentioned (current c : Z) :
  c ∈ default [] (children_dict !! current) → c ∈ mentioned children_dict.
Proof.
  destruct (children_dict !! current) as [children|] eqn:H; cbn [default].
  - by eapply elem_of_mentioned.
  - by intros ?%elem_of_nil.
Qed.

(** Each iteration takes one off the bound. *)
Lemma bfs_step_bound (st st' : bfs) :
  bfs_step children_dict st = Some st' →
  bfs_bound children_dict st = S (bfs_bound children_dict st').
Proof.
  intros (current & rest & children & Hq & Hch & ->)%bfs_step_spec.
  unfold bfs_bound. cbn [queue descendants]. rewrite Hq, length_app.
  cbn [length].
  destruct (fresh_spec (descendants st) children) as [Hnd Hin].
  set (new := Spec.fresh (descendants st) children) in *.
  set (M := mentioned children_dict).
  assert (Hsplit : M ∖ descendants st
    = (M ∖ (descendants st ∪ list_to_set children)) ∪ list_to_set new).
  { apply set_eq. intros x.
    rewrite !elem_of_union, !elem_of_difference, elem_of_union,
      !elem_of_list_to_set, Hin.
    split.
    - intros [HM Hd]. destruct (decide (x ∈ children)); tauto.
    - intros [[HM Hn]|[Hx Hd]]; [tauto|]. split; [|done].
      subst children. by eapply default_children_mentioned. }
  rewrite Hsplit, size_union.
  - rewrite size_list_to_set by done. lia.
  - intros x. rewrite elem_of_difference, elem_of_union, !elem_of_list_to_set, Hin.
    tauto.
Qed.

Lemma bfs_step_None (st : bfs) :
  bfs_step children_dict st = None ↔ queue st = [].
Proof.
  unfold bfs_step. destruct (queue st) as [|current rest]; [done|].
  by destruct (children_dict !! current).
Qed.

(** With the bound for fuel the loop has exited. *)
Lemma bfs_run_exits (n : nat) (st : bfs) :
  (bfs_bound children_dict st ≤ n)%nat →
  queue (bfs_run n children_dict st) = []
  ∧ bfs_loop children_dict st (bfs_run n children_dict st).
Proof.
  revert st. induction n as [|n IH]; intros st Hn; cbn [bfs_run].
  - assert (queue st = []) as Hq.
    { unfold bfs_bound in Hn. destruct (queue st); [done|simpl in Hn; lia]. }
    split; [done|]. by constructor.
  - destruct (bfs_step children_dict st) as [st'|] eqn:Hstep.
    + pose proof (bfs_step_bound _ _ Hstep).
      destruct (IH st') as [Hq Hl]; [lia|]. split; [done|].
      by econstructor.
    + apply bfs_step_None in Hstep. split; [done|]. by constructor.
Qed.

Lemma bfs_loop_deterministic (st st1 st2 : bfs) :
  bfs_loop children_dict st st1 → bfs_loop children_dict st st2 → st1 = st2.
Proof.
  intros H1. revert st2.
  induction H1 as [st Hq|st sta st1 Hstep _ IH]; intros st2 H2.
  - destruct H2 as [|st stb st2 Hstep' _]; [done|].
    apply bfs_step_None in Hq. congruence.
  - destruct H2 as [st Hq|st stb st2 Hstep' H2].
    + apply bfs_step_None in Hq. congruence.
    + apply IH. congruence.
Qed.

Lemma bfs_loop_queue (st st' : bfs) :
  bfs_loop children_dict st st' → queue st' = [].
Proof. by induction 1. Qed.

End descendants.

Section invariant.

Context (children_dict : gmap Z (list Z)) (r : Z).

Lemma parent_link_default (c p : Z) :
  Spec.parent_link children_dict c p
  ↔ c ∈ default [] (children_dict !! p).
Proof.
  unfold Spec.parent_link.
  destruct (children_dict !! p) as [children|]; cbn [default].
  - split; [by intros (? & [= <-] & ?)|]. by exists children.
  - split; [by intros (? & [=] & _)|by intros ?%elem_of_nil].
Qed.

Lemma bfs_inv_init : Spec.bfs_inv children_dict r (bfs_init r).
Proof.
  split; cbn [bfs_init descendants queue pushed].
  - intros x. by rewrite elem_of_empty.
  - intros x ->%list_elem_of_singleton. by left.
  - intros x [->|[]%elem_of_empty]. left. by apply list_elem_of_singleton.
  - exists []. split_and!; [done|constructor|].
    intros x. by rewrite elem_of_nil, elem_of_empty.
Qed.

Lemma bfs_inv_step (st st' : bfs) :
  Spec.bfs_inv children_dict r st →
  bfs_step children_dict st = Some st' →
  Spec.bfs_inv children_dict r st'.
Proof.
  intros [Hsound Hqueue Hclosed (appended & Hp & Hnd & Happ)].
  intros (current & rest & children & Hq & Hch & ->)%bfs_step_spec.
  destruct (fresh_spec (descendants st) children) as [Hfnd Hfin].
  assert (Hcur : current = r ∨ current ∈ descendants st).
  { apply Hqueue. rewrite Hq. left. }
  assert (Hlink : ∀ c, c ∈ children ↔ Spec.parent_link children_dict c current).
  { intros c. by rewrite parent_link_default, Hch. }
  split; cbn [descendants queue pushed].
  - intros x [Hx|Hx%elem_of_list_to_set]%elem_of_union; [by apply Hsound|].
    apply Hlink in Hx. destruct Hcur as [->|Hcur]; [by apply tc_once|].
    eapply tc_l; [exact Hx|by apply Hsound].
  - intros x [Hx|Hx]%elem_of_app.
    + destruct (Hqueue x) as [->|?]; [rewrite Hq; by right|by left|].
      right. set_solver.
    + right. apply Hfin in Hx as [Hx _]. set_solver.
  - intros x Hx.
    destruct (decide (x = current)) as [->|Hne].
    { right. intros c Hc%Hlink. set_solver. }
    assert (Hold : (x = r ∨ x ∈ descendants st) ∨ x ∈ Spec.fresh (descendants st) children).
    { destruct Hx as [->|[Hx|Hx%elem_of_list_to_set]%elem_of_union]; [by auto..|].
      destruct (decide (x ∈ descendants st)); [by auto|].
      right. by apply Hfin. }
    destruct Hold as [Hold|Hnew].
    + destruct (Hclosed x Hold) as [Hxq|Hxc].
      * left. rewrite Hq in Hxq. apply elem_of_cons in Hxq as [?|?]; [done|].
        apply elem_of_app. by left.
      * right. intros c Hc. apply elem_of_union. left. by apply Hxc.
    + left. apply elem_of_app. by right.
  - exists (appended ++ Spec.fresh (descendants st) children).
    split_and!.
    + by rewrite Hp.
    + apply NoDup_app. split_and!; [done| |done].
      intros x Hx%Happ Hx'%Hfin. tauto.
    + intros x. rewrite elem_of_app, Happ, Hfin, elem_of_union, elem_of_list_to_set.
      destruct (decide (x ∈ descendants st)); tauto.
Qed.

Lemma bfs_inv_loop (st st' : bfs) :
  bfs_loop children_dict st st' →
  Spec.bfs_inv children_dict r st → Spec.bfs_inv children_dict r st'.
Proof.
  induction 1 as [|st st1 st2 Hstep _ IH]; [done|].
  intros Hinv. apply IH. by eapply bfs_inv_step.
Qed.

(** When the loop exits, the set holds the identifiers with a path of
    parent links up to the root, and only them. *)
Lemma bfs_inv_exit (st : bfs) (d : Z) :
  Spec.bfs_inv children_dict r st → queue st = [] →
  d ∈ descendants st ↔ Spec.path_up children_dict d r.
Proof.
  intros [Hsound _ Hclosed _] Hq. split; [apply Hsound|].
  assert (Hch : ∀ x c, x = r ∨ x ∈ descendants st →
                 Spec.parent_link children_dict c x → c ∈ descendants st).
  { intros x c Hx Hc. destruct (Hclosed x Hx) as [Hin|Hall]; [|by apply Hall].
    rewrite Hq in Hin. by apply elem_of_nil in Hin. }
  unfold Spec.path_up. intros Hpath.
  remember r as r' eqn:Hr in Hpath.
  induction Hpath as [x y Hxy|x y z Hxy _ IH]; subst.
  - apply (Hch r x); [by left|done].
  - apply (Hch y x); [right; by apply IH|done].
Qed.

Lemma bfs_final_loop :
  bfs_loop children_dict (bfs_init r) (bfs_final r children_dict).
Proof. by apply bfs_run_exits. Qed.

Lemma bfs_final_inv : Spec.bfs_inv children_dict r (bfs_final r children_dict).
Proof. eapply bfs_inv_loop; [apply bfs_final_loop|apply bfs_inv_init]. Qed.

End invariant.

(** C2, as the specification states it, fails: a root that is its own
    parent is in the set of its descendants and is put on the queue twice. *)
Lemma root_on_cycle_collected :
  1 ∈ get_all_descendants 1 {[1 := [1]]}
  ∧ pushed (bfs_final 1 {[1 := [1]]}) = [1; 1].
Proof. split; [by vm_compute|by vm_compute]. Qed.

(** C2. The set returned holds exactly the identifiers with a directed
    path of one or more parent links up to the root; the root itself is in
    it exactly when it lies on a cycle of parent links; and no identifier
    is appended to the queue twice, so that the sequence of identifiers
    put on the queue, the root first, repeats one exactly when the root
    lies on a cycle. *)
Theorem get_all_descendants_spec (r : Z) (children_dict : gmap Z (list Z)) :
  (∀ d, d ∈ get_all_descendants r children_dict
        ↔ Spec.path_up children_dict d r)
  ∧ (r ∈ get_all_descendants r children_dict
     ↔ Spec.path_up children_dict r r)
  ∧ (∃ appended,
       pushed (bfs_final r children_dict) = r :: appended ∧ NoDup appended)
  ∧ (NoDup (pushed (bfs_final r children_dict))
     ↔ ¬ Spec.path_up children_dict r r).
Proof.
  pose proof (bfs_final_inv children_dict r) as Hinv.
  pose proof (bfs_loop_queue _ _ _ (bfs_final_loop children_dict r)) as Hq.
  assert (Hspec : ∀ d, d ∈ get_all_descendants r children_dict
                       ↔ Spec.path_up children_dict d r).
  { intros d. by apply bfs_inv_exit. }
  destruct (Spec.inv_pushed _ _ _ Hinv) as (appended & Hp & Hnd & Happ).
  split_and!; [done|apply Hspec|by exists appended|].
  rewrite Hp, NoDup_cons, Happ, <- Hspec. unfold get_all_descendants. tauto.
Qed.

(** The example of the specification: a root with two direct children. *)
Lemma get_all_descendants_two_children (root child1 child2 : Z) :
  get_all_descendants root {[root := [child1; child2]]} = {[child1; child2]}.
Proof.
  set (cd := {[root := [child1; child2]]} : gmap Z (list Z)).
  assert (Hlink : ∀ d p, Spec.parent_link cd d p
                         ↔ p = root ∧ (d = child1 ∨ d = child2)).
  { intros d p. unfold Spec.parent_link, cd. split.
    - intros (children & [<- <-]%lookup_singleton_Some & Hd). set_solver.
    - intros [-> Hd]. exists [child1; child2].
      rewrite lookup_singleton_eq. set_solver. }
  apply set_eq. intros d. unfold get_all_descendants.
  rewrite (bfs_inv_exit cd root);
    [|apply bfs_final_inv|by eapply bfs_loop_queue, bfs_final_loop].
  rewrite elem_of_union, !elem_of_singleton. split.
  - intros Hpath. unfold Spec.path_up in Hpath.
    inversion Hpath as [? ? Hl|? y ? Hl _]; subst; apply Hlink in Hl; tauto.
  - intros Hd. apply tc_once, Hlink. tauto.
Qed.

(** C4. The traversal terminates on every mapping, cyclic or not: the
    loop exits, after at most one iteration more than there are identifiers
    in the lists of children, in the state [get_all_descendants] reads the
    set from; after the root, each identifier is put on the queue at most
    once. *)
Theorem get_all_descendants_terminates (r : Z) (children_dict : gmap Z (list Z)) :
  bfs_loop children_dict (bfs_init r) (bfs_final r children_dict)
  ∧ queue (bfs_final r children_dict) = []
  ∧ (∃ n, (n ≤ 1 + size (mentioned children_dict))%nat
          ∧ ∀ m, (n ≤ m)%nat →
              bfs_run m children_dict (bfs_init r) = bfs_final r children_dict)
  ∧ (∃ appended,
       pushed (bfs_final r children_dict) = r :: appended ∧ NoDup appended).
Proof.
  pose proof (bfs_final_loop children_dict r) as Hloop.
  split_and!; [done|by eapply bfs_loop_queue| |].
  - exists (bfs_bound children_dict (bfs_init r)). split.
    + unfold bfs_bound. cbn [bfs_init queue descendants length].
      rewrite difference_empty_L. lia.
    + intros m Hm. eapply bfs_loop_deterministic; [|exact Hloop].
      by apply bfs_run_exits.
  - destruct (Spec.inv_pushed _ _ _ (bfs_final_inv children_dict r))
      as (appended & Hp & Hnd & _).
    by exists appended.
Qed.

(** ** The loaders *)

Lemma is_Raise_bind {A B} (m : result A) (f : A → result B) :
  is_Raise m → is_Raise (m ≫= f).
Proof. by intros [e ->]; exists e. Qed.

(** A loop whose body reads a record off each element and raises on the
    elements that encode none. *)
Lemma for_each_records {S A R} (body : S → A → result S) (read : A → option R)
    (add : S → R → S) :
  (∀ st x, match read x with
           | Some r => body st x = Ok (add st r)
           | None => is_Raise (body st x)
           end) →
  ∀ xs st, match mapM read xs with
           | Some rs => for_each body st xs = Ok (foldl add st rs)
           | None => is_Raise (for_each body st xs)
           end.
Proof.
  intros Hbody xs. induction xs as [|x xs IH]; intros st; [done|].
  cbn [for_each mapM]. specialize (Hbody st x).
  destruct (read x) as [r|]; cbn.
  - rewrite Hbody. cbn. specialize (IH (add st r)).
    by destruct (mapM read xs).
  - by apply is_Raise_bind.
Qed.

Section loaders_spec.

Context (max_digits : option nat).

Lemma int_Some (s : str) (z : Z) :
  Int.parse max_digits s = Some z → Int.int max_digits s = Ok z.
Proof. unfold Int.int. by intros ->. Qed.

Lemma int_None (s : str) :
  Int.parse max_digits s = None → Int.int max_digits s = Raise ValueError.
Proof. unfold Int.int. by intros ->. Qed.

Lemma fields_first (line : str) : ∃ f fs, Spec.fields line = f :: fs.
Proof.
  unfold Spec.fields, Str.split. generalize (@nil ascii) as field.
  generalize 0%nat as skip.
  induction (Str.strip line) as [|c s IH]; intros skip field; cbn [Str.split_from].
  - by eexists _, _.
  - destruct skip; [|apply IH].
    destruct (Str.startswith _ _); [by eexists _, _|apply IH].
Qed.

Lemma load_nodes_line_spec (st : nodes) (line : str) :
  match Spec.node_record max_digits line with
  | Some r => load_nodes_line max_digits st line = Ok (Spec.add_node st r)
  | None => is_Raise (load_nodes_line max_digits st line)
  end.
Proof.
  unfold Spec.node_record, load_nodes_line, Spec.int_field.
  fold (Spec.fields line).
  destruct (fields_first line) as (f0 & fs & ->). cbn.
  destruct (Int.parse max_digits (Str.strip f0)) as [i|] eqn:Hi; cbn;
    [rewrite (int_Some _ _ Hi)|rewrite (int_None _ Hi); by eexists].
  cbn. destruct fs as [|f1 fs]; cbn; [by eexists|].
  destruct (Int.parse max_digits (Str.strip f1)) as [p|] eqn:Hp; cbn;
    [rewrite (int_Some _ _ Hp)|rewrite (int_None _ Hp); by eexists].
  cbn. destruct fs as [|f2 fs]; cbn; [by eexists|done].
Qed.


Lemma load_names_line_spec (names_dict : gmap Z str) (line : str) :
  match Spec.name_record max_digits line with
  | Some r => load_names_line max_digits names_dict line
              = Ok (Spec.add_name names_dict r)
  | None => is_Raise (load_names_line max_digits names_dict line)
  end.
Proof.
  unfold Spec.name_record, load_names_line, Spec.int_field.
  fold (Spec.fields line).
  destruct (fields_first line) as (f0 & fs & ->). cbn.
  destruct (Int.parse max_digits (Str.strip f0)) as [i|] eqn:Hi; cbn;
    [rewrite (int_Some _ _ Hi)|rewrite (int_None _ Hi); by eexists].
  cbn. destruct fs as [|f1 [|f2 [|f3 fs]]]; cbn; [by eexists..|].
  by destruct (decide _).
Qed.

End loaders_spec.

(** ** The mappings the records build *)

Lemma last_cons_Some {A} (x : A) (l : list A) (o : option A) :
  from_option Some o (last (x :: l)) = from_option Some (Some x) (last l).
Proof.
  destruct l as [|y l]; [done|]. rewrite last_cons_cons.
  by destruct (proj2 (last_is_Some (y :: l))) as [z ->].
Qed.

Lemma parent_dict_foldl (st : nodes) (rs : list (Z * Z * str)) (i : Z) :
  parent_dict (foldl Spec.add_node st rs) !! i
  = from_option Some (parent_dict st !! i) (last (Spec.parents_of i rs)).
Proof.
  revert st. induction rs as [|[[j p] rank] rs IH]; intros st; [done|].
  cbn [foldl]. rewrite IH. unfold Spec.parents_of. cbn [omap list_omap Spec.add_node parent_dict].
  destruct (decide (j = i)) as [->|Hne].
  - by rewrite last_cons_Some, lookup_insert_eq.
  - by rewrite lookup_insert_ne.
Qed.

Lemma rank_dict_foldl (st : nodes) (rs : list (Z * Z * str)) (i : Z) :
  rank_dict (foldl Spec.add_node st rs) !! i
  = from_option Some (rank_dict st !! i) (last (Spec.ranks_of i rs)).
Proof.
  revert st. induction rs as [|[[j p] rank] rs IH]; intros st; [done|].
  cbn [foldl]. rewrite IH. unfold Spec.ranks_of. cbn [omap list_omap Spec.add_node rank_dict].
  destruct (decide (j = i)) as [->|Hne].
  - by rewrite last_cons_Some, lookup_insert_eq.
  - by rewrite lookup_insert_ne.
Qed.

Lemma children_dict_foldl (st : nodes) (rs : list (Z * Z * str)) (p : Z) :
  children_dict (foldl Spec.add_node st rs) !! p
  = match Spec.children_of p rs with
    | [] => children_dict st !! p
    | l => Some (default [] (children_dict st !! p) ++ l)
    end.
Proof.
  revert st. induction rs as [|[[j q] rank] rs IH]; intros st; [done|].
  cbn [foldl]. rewrite IH. unfold Spec.children_of.
  cbn [omap list_omap Spec.add_node children_dict]. unfold append_child.
  destruct (decide (q = p)) as [->|Hne].
  - rewrite lookup_insert_eq. cbn [default].
    fold (Spec.children_of p rs).
    destruct (Spec.children_of p rs); [done|].
    unfold id. by rewrite <- app_assoc.
  - by rewrite lookup_insert_ne.
Qed.

Lemma names_dict_foldl (m : gmap Z str) (rs : list (Z * str * str)) (i : Z) :
  foldl Spec.add_name m rs !! i
  = from_option Some (m !! i) (last (Spec.scientific_names i rs)).
Proof.
  revert m. induction rs as [|[[j name] class] rs IH]; intros m; [done|].
  cbn [foldl]. rewrite IH. unfold Spec.scientific_names.
  cbn [omap list_omap Spec.add_name].
  destruct (decide (class = _)) as [Hc|Hc].
  - destruct (decide (j = i)) as [->|Hne].
    + rewrite decide_True by done. by rewrite last_cons_Some, lookup_insert_eq.
    + rewrite decide_False by tauto. by rewrite lookup_insert_ne.
  - by rewrite decide_False by tauto.
Qed.

Lemma elem_of_scientific_names (i : Z) (rs : list (Z * str * str)) (name : str) :
  name ∈ Spec.scientific_names i rs
  ↔ (i, name, ("scientific name" : str)) ∈ rs.
Proof.
  unfold Spec.scientific_names. rewrite list_elem_of_omap. split.
  - intros ([[j n] c] & Hin & H). by destruct (decide _) as [[-> ->]|]; simplify_eq.
  - intros Hin. eexists. split; [exact Hin|]. cbv beta iota.
    by rewrite decide_True.
Qed.



(** C9, as the specification states it, fails: a line whose class field
    is " scientific name", with a space before it, gives an entry, although
    stripping its trailing tabs and pipes does not leave the exact string:
    the loader strips the white space around the field first. *)
Lemma padded_class_kept :
  load_names None Examples.padded_names_file
  = Ok {[9689 := ("Panthera leo" : str)]}
  ∧ Forall (λ line, Spec.worded_name_class line
                    = Some (" scientific name" : str))
      Examples.padded_names_file.
Proof.
  split; [by vm_compute|].
  apply Forall_cons_2; [by vm_compute|apply Forall_nil_2].
Qed.

(** C9. The name class of a line being its fourth field stripped of the
    white space around it and then of its trailing tabs and pipes: when
    the name loader returns, its mapping has an entry for an identifier
    exactly when some line for it has the name class "scientific name",
    and the entry is the name of the last such line. *)
Theorem load_names_spec (max_digits : option nat) (names_file : list str)
    (names_dict : gmap Z str) :
  load_names max_digits names_file = Ok names_dict →
  ∃ rs,
    mapM (Spec.name_record max_digits) names_file = Some rs
    ∧ (∀ i, is_Some (names_dict !! i)
            ↔ ∃ name, (i, name, ("scientific name" : str)) ∈ rs)
    ∧ (∀ i, names_dict !! i = last (Spec.scientific_names i rs)).
Proof.
  intros Hok.
  pose proof (for_each_records _ _ _ (load_names_line_spec max_digits)
                names_file ∅) as Hload.
  fold (load_names max_digits names_file) in Hload. rewrite Hok in Hload.
  destruct (mapM _ names_file) as [rs|]; [|by destruct Hload].
  injection Hload as ->. exists rs.
  assert (Hlast : ∀ i, foldl Spec.add_name ∅ rs !! i
                       = last (Spec.scientific_names i rs)).
  { intros i. rewrite names_dict_foldl, lookup_empty. by destruct (last _). }
  split_and!; [done| |done].
  intros i. rewrite Hlast. split.
  - intros [name Hn]. exists name.
    apply elem_of_scientific_names. by apply last_Some_elem_of.
  - intros [name Hn%elem_of_scientific_names].
    destruct (Spec.scientific_names i rs) as [|x l] eqn:E using rev_ind;
      [by apply elem_of_nil in Hn|].
    rewrite last_snoc. by eexists.
Qed.


Lemma load_names_spec_witness :
  load_names None Examples.names_file = Ok {[9689 := ("Panthera leo" : str)]}
  ∧ ∃ rs,
      mapM (Spec.name_record None) Examples.names_file = Some rs
      ∧ (∀ i, is_Some (({[9689 := ("Panthera leo" : str)]} : gmap Z str) !! i)
              ↔ ∃ name, (i, name, ("scientific name" : str)) ∈ rs)
      ∧ (∀ i, ({[9689 := ("Panthera leo" : str)]} : gmap Z str) !! i
              = last (Spec.scientific_names i rs)).
Proof.
  assert (H : load_names None Examples.names_file
              = Ok {[9689 := ("Panthera leo" : str)]}) by by vm_compute.
  split; [exact H|].
  exact (load_names_spec None Examples.names_file _ H).
Defined.

(** ** The order on strings and the sort *)

Lemma code_inj (x y : ascii) : Char.code x = Char.code y → x = y.
Proof. intros H. apply eqb_eq. unfold Char.eqb. by apply N.eqb_eq. Qed.

Ltac order_cases x y :=
  destruct (N.ltb_spec (Char.code x) (Char.code y));
  destruct (N.ltb_spec (Char.code y) (Char.code x));
  destruct (N.eqb_spec (Char.code x) (Char.code y));
  destruct (N.eqb_spec (Char.code y) (Char.code x));
  try lia; cbn [orb andb].

#[global] Instance str_le_total : Total Str.le.
Proof.
  intros a. unfold Str.le. induction a as [|x a IH]; intros [|y b]; cbn [Str.ltb];
    [by left|by left|by right|].
  order_cases x y; auto.
Qed.

#[global] Instance str_le_antisymm : AntiSymm (=) Str.le.
Proof.
  intros a. unfold Str.le. induction a as [|x a IH]; intros [|y b]; cbn [Str.ltb];
    [done..|].
  order_cases x y; try done.
  intros H1 H2. f_equal; [by apply code_inj|by apply IH].
Qed.

#[global] Instance str_le_trans : Transitive Str.le.
Proof.
  intros a. unfold Str.le. induction a as [|x a IH]; intros [|y b] [|z c];
    cbn [Str.ltb]; try done.
  order_cases x y; try done; order_cases y z; try done;
    order_cases x z; try done.
  all: try (intros; exfalso; lia).
  apply IH.
Qed.

Lemma sort_sorted (l : list str) : Sorted Str.le (Str.sort l).
Proof. apply (Sorted_merge_sort Str.le). Qed.

Lemma sort_perm (l : list str) : Str.sort l ≡ₚ l.
Proof. apply (merge_sort_Permutation Str.le). Qed.

(** The sorted sequence depends on the elements only, not on their order. *)
Lemma sort_unique (l1 l2 : list str) : l1 ≡ₚ l2 → Str.sort l1 = Str.sort l2.
Proof.
  intros H. apply (Sorted_unique Str.le); [apply sort_sorted..|].
  by rewrite !sort_perm.
Qed.

Lemma StronglySorted_filter {A} (R : relation A) (P : A → Prop)
    `{∀ x, Decision (P x)} (l : list A) :
  StronglySorted R l → StronglySorted R (filter P l).
Proof.
  induction 1 as [|x l Hl IH Hx]; [constructor|].
  rewrite filter_cons. destruct (decide (P x)); [|done].
  constructor; [done|]. rewrite Forall_forall in Hx |- *.
  intros y [_ Hy]%list_elem_of_filter. by apply Hx.
Qed.

Lemma sort_filter (P : str → Prop) `{∀ x, Decision (P x)} (l : list str) :
  Str.sort (filter P l) = filter P (Str.sort l).
Proof.
  apply (Sorted_unique Str.le); [apply sort_sorted| |].
  - apply StronglySorted_Sorted, StronglySorted_filter.
    apply (StronglySorted_merge_sort Str.le).
  - by rewrite !sort_perm.
Qed.

(** ** The pipeline *)

Lemma validb_Ok (name : str) : is_valid_species_name name = Ok (Spec.validb name).
Proof.
  unfold Spec.validb. destruct (is_valid_with_total exclude_patterns name) as [b Hb].
  unfold is_valid_species_name. rewrite Hb. by destruct b.
Qed.

(** The body of the loop over the descendants raises nothing. *)
Lemma filter_species_spec (rank_dict names_dict : gmap Z str) (acc : species)
    (d : Z) :
  filter_species rank_dict names_dict acc d
  = Ok (if decide (Spec.is_species rank_dict d)
        then Species
               (all_mammal_species acc ++ [Spec.name_of names_dict d])
               (valid_mammal_species acc
                ++ filter Spec.validb [Spec.name_of names_dict d])
        else acc).
Proof.
  unfold filter_species. fold (Spec.name_of names_dict d).
  fold (Spec.is_species rank_dict d).
  destruct (decide (Spec.is_species rank_dict d)); [|done].
  rewrite validb_Ok. cbn [mbind result_bind].
  rewrite filter_cons, filter_nil.
  destruct (Spec.validb (Spec.name_of names_dict d)) eqn:Hv.
  - by rewrite decide_True.
  - rewrite decide_False by (unfold Is_true; tauto). by rewrite app_nil_r.
Qed.

(** The loop collects the names of the species, and among them the valid
    ones, in the order of the loop. *)
Lemma for_each_filter_species (rank_dict names_dict : gmap Z str)
    (ids : list Z) (all valid : list str) :
  for_each (filter_species rank_dict names_dict) (Species all valid) ids
  = Ok (Species
          (all ++ Spec.species_names rank_dict names_dict ids)
          (valid ++ filter Spec.validb
                      (Spec.species_names rank_dict names_dict ids))).
Proof.
  revert all valid. unfold Spec.species_names.
  induction ids as [|d ids IH]; intros all valid.
  - cbn. by rewrite !app_nil_r.
  - cbn [for_each]. rewrite filter_species_spec. cbn [mbind result_bind].
    rewrite (filter_cons (Spec.is_species rank_dict)).
    destruct (decide (Spec.is_species rank_dict d)) as [Hd|Hd]; [|apply IH].
    rewrite IH. cbn [all_mammal_species valid_mammal_species].
    rewrite fmap_cons, <- !app_assoc. do 3 f_equal.
    symmetry. apply (filter_app _ [_]).
Qed.

(** The run in closed form. *)
Lemma main_closed_form (max_digits : option nat) (iter : gset Z → list Z)
    (nodes_file names_file : list str) :
  main max_digits iter nodes_file names_file
  = (st ← load_nodes max_digits nodes_file;
     names_dict ← load_names max_digits names_file;
     let all :=
       Spec.species_names (rank_dict st) names_dict
         (iter (get_all_descendants MAMMALIA_TAX_ID (children_dict st))) in
     Ok (Outcome (Str.sort all) (Str.sort (filter Spec.validb all))
           ((λ name, name ++ [Char.LF])
              <$> Str.sort (filter Spec.validb all)))).
Proof.
  unfold main. destruct (load_nodes _ _) as [st|]; [|done]. cbn.
  destruct (load_names _ _) as [names_dict|]; [|done]. cbn.
  by rewrite for_each_filter_species.
Qed.

Lemma species_names_perm (rank_dict names_dict : gmap Z str) (l1 l2 : list Z) :
  l1 ≡ₚ l2 →
  Spec.species_names rank_dict names_dict l1
  ≡ₚ Spec.species_names rank_dict names_dict l2.
Proof. intros H. unfold Spec.species_names. by rewrite H. Qed.

Lemma occurrences_species_names (rank_dict names_dict : gmap Z str)
    (name : str) (ids : list Z) :
  Spec.occurrences name (Spec.species_names rank_dict names_dict ids)
  = length (filter (λ d, Spec.is_species rank_dict d
                         ∧ Spec.name_of names_dict d = name) ids).
Proof.
  unfold Spec.occurrences, Spec.species_names.
  induction ids as [|d ids IH]; [done|].
  rewrite (filter_cons (Spec.is_species rank_dict)).
  rewrite (filter_cons (λ d, _ ∧ _)).
  destruct (decide (Spec.is_species rank_dict d)) as [Hd|Hd].
  - rewrite fmap_cons, filter_cons.
    destruct (decide (name = Spec.name_of names_dict d)) as [->|Hne].
    + rewrite decide_True by done. cbn [length]. by rewrite IH.
    + rewrite decide_False by (intros [_ ?]; congruence). done.
  - rewrite decide_False by tauto. done.
Qed.

Lemma occurrences_filter (name : str) (l : list str) :
  Spec.occurrences name (filter Spec.validb l)
  = if Spec.validb name then Spec.occurrences name l else 0%nat.
Proof.
  unfold Spec.occurrences. rewrite list_filter_filter.
  induction l as [|x l IH]; [by destruct (Spec.validb name)|].
  rewrite !filter_cons.
  destruct (decide (name = x)) as [<-|Hne].
  - destruct (Spec.validb name) eqn:Hv.
    + rewrite decide_True by done. cbn [length]. by rewrite IH.
    + rewrite decide_False by (by intros [_ ?]). done.
  - rewrite decide_False by tauto. done.
Qed.

Lemma example_run :
  main None elements Examples.nodes_file Examples.names_file
  = Ok (Outcome [("Panthera leo" : str)] [("Panthera leo" : str)]
          [("Panthera leo" : str) ++ [Char.LF]]).
Proof. by vm_compute. Qed.

Lemma mixed_run :
  main None elements Examples.mixed_nodes_file Examples.mixed_names_file
  = Ok Examples.mixed_outcome.
Proof. by vm_compute. Qed.

(** C6, as the specification states it, fails: when every species name is
    valid the confirmed names are all the species names, not a strict
    subset of them. *)
Lemma every_species_confirmed :
  ∃ o, main None elements Examples.nodes_file Examples.names_file = Ok o
       ∧ valid_sorted o = all_sorted o.
Proof. eexists. split; [exact example_run|done]. Qed.

(** C6. The confirmed names written to the output file are the valid
    names of the sorted "all species" sequence, hence a subsequence of it,
    possibly the whole of it; they are sorted ascending in the
    lexicographic order of the code points; and no duplicate is removed: a
    valid name occurs as often as there are qualifying identifiers that
    carry it. *)
Theorem confirmed_names_spec (max_digits : option nat) (iter : gset Z → list Z)
    (nodes_file names_file : list str) (o : outcome) :
  Spec.set_order iter →
  main max_digits iter nodes_file names_file = Ok o →
  valid_sorted o = filter Spec.validb (all_sorted o)
  ∧ valid_sorted o `sublist_of` all_sorted o
  ∧ Sorted Str.le (all_sorted o)
  ∧ Sorted Str.le (valid_sorted o)
  ∧ written o = (λ name, name ++ [Char.LF]) <$> valid_sorted o
  ∧ ∃ st names_dict,
      load_nodes max_digits nodes_file = Ok st
      ∧ load_names max_digits names_file = Ok names_dict
      ∧ ∀ name,
          Spec.occurrences name (all_sorted o)
          = length (Spec.qualifying (rank_dict st) names_dict name
                      (get_all_descendants MAMMALIA_TAX_ID (children_dict st)))
          ∧ Spec.occurrences name (valid_sorted o)
            = if Spec.validb name
              then Spec.occurrences name (all_sorted o) else 0%nat.
Proof.
  intros Hiter. rewrite main_closed_form.
  destruct (load_nodes _ _) as [st|]; [|done]. cbn [mbind result_bind].
  destruct (load_names _ _) as [names_dict|]; [|done]. cbn [mbind result_bind].
  cbv zeta. intros [= <-]. cbn [all_sorted valid_sorted written].
  set (D := get_all_descendants MAMMALIA_TAX_ID (children_dict st)).
  set (all := Spec.species_names (rank_dict st) names_dict (iter D)).
  assert (Hf : Str.sort (filter Spec.validb all)
               = filter Spec.validb (Str.sort all)) by apply sort_filter.
  split_and!; [done| |apply sort_sorted..|done|].
  - rewrite Hf. apply sublist_filter.
  - exists st, names_dict. split_and!; [done..|]. intros name.
    assert (Hocc : ∀ l, Spec.occurrences name (Str.sort l)
                        = Spec.occurrences name l).
    { intros l. unfold Spec.occurrences. by rewrite sort_perm. }
    split.
    + rewrite Hocc. unfold all. rewrite occurrences_species_names.
      unfold Spec.qualifying. by rewrite (Hiter D).
    + by rewrite !Hocc, occurrences_filter.
Qed.

Lemma confirmed_names_spec_witness :
  Spec.set_order elements
  ∧ main None elements Examples.mixed_nodes_file Examples.mixed_names_file
    = Ok Examples.mixed_outcome
  ∧ valid_sorted Examples.mixed_outcome
    = filter Spec.validb (all_sorted Examples.mixed_outcome)
  ∧ valid_sorted Examples.mixed_outcome
    `sublist_of` all_sorted Examples.mixed_outcome
  ∧ Sorted Str.le (all_sorted Examples.mixed_outcome)
  ∧ Sorted Str.le (valid_sorted Examples.mixed_outcome)
  ∧ written Examples.mixed_outcome
    = (λ name, name ++ [Char.LF]) <$> valid_sorted Examples.mixed_outcome.
Proof.
  assert (Horder : Spec.set_order elements) by (intros s; reflexivity).
  assert (Hrun : main None elements Examples.mixed_nodes_file
                   Examples.mixed_names_file = Ok Examples.mixed_outcome).
  { exact mixed_run. }
  split; [exact Horder|]. split; [exact Hrun|].
  destruct (confirmed_names_spec None elements Examples.mixed_nodes_file
              Examples.mixed_names_file _ Horder Hrun)
    as (H1 & H2 & H3 & H4 & H5 & _).
  by split_and!.
Defined.

(** C7. Two runs on the same input files leave the same outcome, the same
    lines in the output file among it, in whatever order each run goes
    through the set of descendants. *)
Theorem main_deterministic (max_digits : option nat)
    (iter1 iter2 : gset Z → list Z) (nodes_file names_file : list str) :
  Spec.set_order iter1 → Spec.set_order iter2 →
  main max_digits iter1 nodes_file names_file
  = main max_digits iter2 nodes_file names_file.
Proof.
  intros H1 H2. rewrite !main_closed_form.
  destruct (load_nodes _ _) as [st|]; [|done]. cbn [mbind result_bind].
  destruct (load_names _ _) as [names_dict|]; [|done]. cbn [mbind result_bind].
  cbv zeta.
  set (D := get_all_descendants MAMMALIA_TAX_ID (children_dict st)).
  assert (Hp : Spec.species_names (rank_dict st) names_dict (iter1 D)
               ≡ₚ Spec.species_names (rank_dict st) names_dict (iter2 D)).
  { apply species_names_perm. by rewrite (H1 D), (H2 D). }
  assert (Hs : Str.sort (Spec.species_names (rank_dict st) names_dict (iter1 D))
               = Str.sort (Spec.species_names (rank_dict st) names_dict (iter2 D)))
    by by apply sort_unique.
  assert (Hv : Str.sort (filter Spec.validb
                 (Spec.species_names (rank_dict st) names_dict (iter1 D)))
               = Str.sort (filter Spec.validb
                 (Spec.species_names (rank_dict st) names_dict (iter2 D)))).
  { apply sort_unique. by rewrite Hp. }
  by rewrite Hs, Hv.
Qed.

Lemma main_deterministic_witness :
  Spec.set_order elements
  ∧ Spec.set_order (λ s, reverse (elements s))
  ∧ main None elements Examples.mixed_nodes_file Examples.mixed_names_file
    = main None (λ s, reverse (elements s))
        Examples.mixed_nodes_file Examples.mixed_names_file.
Proof.
  assert (H1 : Spec.set_order elements) by (intros s; reflexivity).
  assert (H2 : Spec.set_order (λ s, reverse (elements s)))
    by (intros s; apply reverse_Permutation).
  split; [exact H1|]. split; [exact H2|].
  exact (main_deterministic None elements (λ s, reverse (elements s))
           Examples.mixed_nodes_file Examples.mixed_names_file H1 H2).
Defined.

(** * Further properties *)

(** ** Names the validator rejects *)

Lemma before_of_cons (before : bool) (c : ascii) (pre : str) :
  Aux.before_of before (c :: pre) = Aux.before_of (Char.isword c) pre.
Proof.
  unfold Aux.before_of. destruct pre as [|a pre]; [done|].
  rewrite last_cons_cons.
  by destruct (proj2 (last_is_Some (a :: pre))) as [z ->].
Qed.

Lemma search_from_app (r : regex) (before : bool) (pre post : str) :
  matches_at r (Aux.before_of before pre, post) = true →
  search_from r before (pre ++ post) = true.
Proof.
  revert before. induction pre as [|c pre IH]; intros before Hm.
  - destruct post; cbn [app search_from]; cbn in Hm; by rewrite Hm.
  - cbn [app search_from]. rewrite IH; [apply orb_true_r|].
    by rewrite <- (before_of_cons before).
Qed.

Lemma is_valid_false_intro (r : regex) (name pre post : str) :
  r ∈ exclude_patterns →
  Str.lower name = pre ++ post →
  matches_at r (Aux.before_of false pre, post) = true →
  is_valid_species_name name = Ok false.
Proof.
  intros Hr Hname Hm. unfold is_valid_species_name, is_valid_with.
  destruct (existsb _ _) eqn:He; [done|].
  rewrite existsb_false in He. specialize (He r Hr).
  unfold search in He. rewrite Hname, search_from_app in He; done.
Qed.

Lemma eqb_refl (c : ascii) : Char.eqb c c = true.
Proof. by apply eqb_eq. Qed.

Lemma ends_lit (u : str) (before : bool) (rest : str) :
  u ≠ [] →
  ends (lit u) (before, u ++ rest) = [(Aux.before_of before u, rest)].
Proof.
  revert before. induction u as [|c u IH]; intros before Hu; [done|].
  destruct u as [|c' u].
  - cbn. by rewrite eqb_refl.
  - change (lit (c :: c' :: u)) with (Cat (Chr c) (lit (c' :: u))).
    cbn [ends app fst snd]. rewrite eqb_refl. cbn [mbind list_bind app].
    change (c' :: u ++ rest) with ((c' :: u) ++ rest).
    rewrite (IH (Char.isword c)) by done. rewrite app_nil_r.
    by rewrite (before_of_cons before c (c' :: u)).
Qed.

Lemma lower_app (a b : str) : Str.lower (a ++ b) = Str.lower a ++ Str.lower b.
Proof. apply fmap_app. Qed.

(** X1. A name that contains a parenthesis is never valid. *)
Theorem parenthesis_rejected (a b : str) :
  is_valid_species_name (a ++ "(" ++ b) = Ok false
  ∧ is_valid_species_name (a ++ ")" ++ b) = Ok false.
Proof.
  split.
  - apply (is_valid_false_intro (Cls (λ c, Char.one 40 c || Char.one 41 c))
             _ (Str.lower a) ("(" ++ Str.lower b)).
    + apply list_elem_of_lookup. by exists 12%nat.
    + by rewrite !lower_app.
    + done.
  - apply (is_valid_false_intro (Cls (λ c, Char.one 40 c || Char.one 41 c))
             _ (Str.lower a) (")" ++ Str.lower b)).
    + apply list_elem_of_lookup. by exists 12%nat.
    + by rewrite !lower_app.
    + done.
Qed.

Lemma char_implies (P Q : ascii → bool) :
  forallb (λ c, implb (P c) (Q c)) Char.all = true →
  ∀ c, P c = true → Q c = true.
Proof.
  intros H c Hc. pose proof (char_forall _ H c) as Hi.
  cbv beta in Hi. by rewrite Hc in Hi.
Qed.

Lemma lower_decimal (c : ascii) : Char.isdecimal c = true → Char.lower c = c.
Proof.
  intros Hc. apply eqb_eq. revert c Hc.
  apply (char_implies Char.isdecimal (λ c, Char.eqb (Char.lower c) c)).
  by vm_compute.
Qed.

Lemma space_not_word (c : ascii) : Char.isspace c = true → Char.isword c = false.
Proof.
  intros Hc. apply negb_true_iff. revert c Hc.
  apply (char_implies Char.isspace (λ c, negb (Char.isword c))).
  by vm_compute.
Qed.

(** X2. A name that contains four decimal digits in a row is never
    valid. *)
Theorem four_digits_rejected (a ds b : str) :
  length ds = 4%nat → Forall (λ c, Char.isdecimal c = true) ds →
  is_valid_species_name (a ++ ds ++ b) = Ok false.
Proof.
  intros Hlen Hds.
  destruct ds as [|d1 [|d2 [|d3 [|d4 [|? ?]]]]]; try done.
  apply Forall_cons in Hds as [H1 Hds]. apply Forall_cons in Hds as [H2 Hds].
  apply Forall_cons in Hds as [H3 Hds]. apply Forall_cons in Hds as [H4 _].
  apply (is_valid_false_intro (Rep Char.isdecimal 4 (Some 4%nat)) _
           (Str.lower a) ([d1; d2; d3; d4] ++ Str.lower b)).
  - apply list_elem_of_lookup. by exists 13%nat.
  - rewrite !lower_app. cbn [Str.lower fmap list_fmap].
    by rewrite !lower_decimal.
  - unfold matches_at. cbn [ends rep app fst snd fmap option_fmap option_map pred].
    rewrite H1, H2, H3, H4. by destruct (Str.lower b).
Qed.

Lemma four_digits_rejected_witness :
  is_valid_species_name ("Mus sp" ++ "2015" ++ " x") = Ok false.
Proof.
  apply (four_digits_rejected "Mus sp" "2015" " x"); [done|].
  by repeat constructor.
Defined.

(** X3. A name that contains the tag "bold:", in any letter case, is never
    valid. *)
Theorem bold_tag_rejected (a u b : str) :
  Str.lower u = ("bold:" : str) →
  is_valid_species_name (a ++ u ++ b) = Ok false.
Proof.
  intros Hu.
  apply (is_valid_false_intro (lit "bold:") _
           (Str.lower a) (("bold:" : str) ++ Str.lower b)).
  - apply list_elem_of_lookup. by exists 11%nat.
  - by rewrite !lower_app, Hu.
  - unfold matches_at. by rewrite ends_lit.
Qed.

Lemma bold_tag_rejected_witness :
  is_valid_species_name ("Mus musculus " ++ "BOLD:" ++ "AAA1234") = Ok false.
Proof. by apply (bold_tag_rejected "Mus musculus " "BOLD:" "AAA1234"). Defined.

(** A word of [name.split()] stands in the name between white space or the
    ends of the name. *)
Lemma split_ws_from_context (w0 s x : str) :
  x ∈ Str.split_ws_from w0 s →
  (∀ c, c ∈ w0 → Char.isspace c = false) →
  ∃ pre post,
    w0 ++ s = pre ++ x ++ post
    ∧ (∀ c, last pre = Some c → Char.isspace c = true)
    ∧ (∀ c, head post = Some c → Char.isspace c = true).
Proof.
  revert w0. induction s as [|c s IH]; intros w0 Hx Hw0; cbn [Str.split_ws_from] in Hx.
  - destruct w0 as [|a w0]; [by apply elem_of_nil in Hx|].
    apply list_elem_of_singleton in Hx as ->.
    exists [], []. by rewrite !app_nil_r.
  - destruct (Char.isspace c) eqn:Hc.
    + assert (Hrest : x ∈ Str.split_ws_from [] s →
                ∃ pre post, w0 ++ c :: s = pre ++ x ++ post
                  ∧ (∀ c, last pre = Some c → Char.isspace c = true)
                  ∧ (∀ c, head post = Some c → Char.isspace c = true)).
      { intros Hin. destruct (IH [] Hin) as (pre & post & Hs & Hpre & Hpost).
        { by intros ? ?%elem_of_nil. }
        cbn [app] in Hs. exists (w0 ++ c :: pre), post. split_and!; [|  |done].
        - rewrite Hs. by rewrite <- !app_assoc.
        - intros d. rewrite last_app. destruct (last (c :: pre)) as [e|] eqn:He.
          + intros [= <-]. destruct pre as [|p pre].
            * by injection He as <-.
            * rewrite last_cons_cons in He. by apply Hpre.
          + destruct (proj2 (last_is_Some (c :: pre))) as [z Hz]; [done|].
            congruence. }
      destruct w0 as [|a w0]; [exact (Hrest Hx)|].
      apply elem_of_cons in Hx as [->|Hx]; [|exact (Hrest Hx)].
      exists [], (c :: s). split_and!; [done..|]. by intros ? [= <-].
    + destruct (IH (w0 ++ [c]) Hx) as (pre & post & Hs & Hpre & Hpost).
      { intros d [Hd| ->%list_elem_of_singleton]%elem_of_app; [by apply Hw0|done]. }
      exists pre, post. split_and!; [|done..]. by rewrite <- Hs, <- app_assoc.
Qed.

Lemma split_ws_context (name x : str) :
  x ∈ Str.split_ws name →
  ∃ pre post,
    name = pre ++ x ++ post
    ∧ (∀ c, last pre = Some c → Char.isspace c = true)
    ∧ (∀ c, head post = Some c → Char.isspace c = true).
Proof.
  intros Hx. apply (split_ws_from_context [] name x Hx).
  by intros ? ?%elem_of_nil.
Qed.

Lemma before_of_lower_space (pre : str) :
  (∀ c, last pre = Some c → Char.isspace c = true) →
  Aux.before_of false (Str.lower pre) = false.
Proof.
  intros Hpre. unfold Aux.before_of, Str.lower. rewrite fmap_last.
  destruct (last pre) as [c|]; [|done]. cbn.
  rewrite isword_lower. by apply space_not_word, Hpre.
Qed.

Lemma starts_nonword_lower_space (post : str) :
  (∀ c, head post = Some c → Char.isspace c = true) →
  Aux.starts_nonword (Str.lower post).
Proof.
  intros Hpost. destruct post as [|c post]; [done|]. cbn.
  rewrite isword_lower. by apply space_not_word, Hpost.
Qed.

(** The three shapes of the word patterns. *)
Lemma matches_word_dot (t rest : str) (c : ascii) (t' : str) :
  t = c :: t' → Char.isword c = true →
  matches_at (Cat WordB (lit t)) (false, t ++ rest) = true.
Proof.
  intros -> Hc. apply matches_at_elem. eexists.
  cbn [ends]. apply list_elem_of_bind. exists (false, (c :: t') ++ rest). split.
  - rewrite ends_lit by done. by apply list_elem_of_singleton.
  - unfold boundary. cbn. rewrite Hc. by apply list_elem_of_singleton.
Qed.

Lemma matches_cat_boundary (r : regex) (p : pos) (before : bool) (rest : str) :
  (before, rest) ∈ ends r p → before = true → Aux.starts_nonword rest →
  matches_at (Cat r WordB) p = true.
Proof.
  intros Hin -> Hrest. apply matches_at_elem. exists (true, rest).
  cbn [ends]. apply list_elem_of_bind. exists (true, rest). split; [|done].
  unfold boundary. destruct rest as [|c rest]; cbn in *.
  - by apply list_elem_of_singleton.
  - rewrite Hrest. by apply list_elem_of_singleton.
Qed.

Lemma matches_word (r : regex) (t rest : str) (c : ascii) (t' : str) :
  t = c :: t' → Char.isword c = true →
  (Aux.before_of false t, rest) ∈ ends r (false, t ++ rest) →
  Aux.before_of false t = true → Aux.starts_nonword rest →
  matches_at (Cat WordB (Cat r WordB)) (false, t ++ rest) = true.
Proof.
  intros Ht Hc Hin Hlast Hrest.
  assert (Hb : ends WordB (false, t ++ rest) = [(false, t ++ rest)]).
  { subst t. cbn. unfold boundary. cbn. by rewrite Hc. }
  pose proof (matches_cat_boundary r _ _ rest Hin Hlast Hrest) as Hm.
  apply matches_at_elem in Hm as [q Hq]. apply matches_at_elem. exists q.
  change (q ∈ ends WordB (false, t ++ rest) ≫= ends (Cat r WordB)).
  apply list_elem_of_bind. exists (false, t ++ rest). split; [done|].
  rewrite Hb. by apply list_elem_of_singleton.
Qed.

Ltac pick_pattern i :=
  let r := eval cbv beta iota zeta delta [exclude_patterns lookup list_lookup]
           in (exclude_patterns !! i) in
  match r with
  | Some ?p => exists p; split; [apply list_elem_of_lookup; by exists i|]
  end.

Ltac match_word :=
  first
    [ eapply matches_word_dot; [reflexivity|by vm_compute]
    | eapply matches_word;
        [ reflexivity | by vm_compute
        | first [ rewrite ends_lit by done; by apply list_elem_of_singleton
                | cbn [ends]; apply elem_of_app; left;
                  rewrite ends_lit by done; by apply list_elem_of_singleton
                | cbn [ends]; apply elem_of_app; right;
                  rewrite ends_lit by done; by apply list_elem_of_singleton ]
        | by vm_compute | done ] ].

Lemma provisional_word_rule (t rest : str) :
  t ∈ Aux.provisional_words → Aux.starts_nonword rest →
  ∃ r, r ∈ exclude_patterns ∧ matches_at r (false, t ++ rest) = true.
Proof.
  intros Ht Hrest. unfold Aux.provisional_words in Ht.
  repeat (apply elem_of_cons in Ht as [->|Ht]); [..|by apply elem_of_nil in Ht].
  - pick_pattern 0%nat. match_word.
  - pick_pattern 1%nat. match_word.
  - pick_pattern 2%nat. match_word.
  - pick_pattern 3%nat. match_word.
  - pick_pattern 4%nat. match_word.
  - pick_pattern 5%nat. match_word.
  - pick_pattern 6%nat. match_word.
  - pick_pattern 7%nat. match_word.
  - pick_pattern 8%nat. match_word.
  - pick_pattern 9%nat. match_word.
  - pick_pattern 10%nat. match_word.
  - pick_pattern 16%nat. match_word.
  - pick_pattern 16%nat. match_word.
Qed.

(** X4. A name one of whose words is a provisional marker, in any letter
    case ("sp.", "cf.", "aff.", "x", "isolate", "haplotype", "gen.", "gen",
    "environmental", "mixed", "indet.", "complex" or "group"), is never
    valid. *)
Theorem provisional_word_rejected (name word : str) :
  word ∈ Str.split_ws name →
  Str.lower word ∈ Aux.provisional_words →
  is_valid_species_name name = Ok false.
Proof.
  intros (pre & post & -> & Hpre & Hpost)%split_ws_context Hword.
  destruct (provisional_word_rule (Str.lower word) (Str.lower post) Hword)
    as (r & Hr & Hm); [by apply starts_nonword_lower_space|].
  apply (is_valid_false_intro r _ (Str.lower pre)
           (Str.lower word ++ Str.lower post)); [done|by rewrite !lower_app|].
  by rewrite before_of_lower_space.
Qed.

Lemma provisional_word_rejected_witness :
  is_valid_species_name "Canis lupus X Canis latrans" = Ok false.
Proof.
  apply (provisional_word_rejected "Canis lupus X Canis latrans" "X").
  - by vm_compute; apply list_elem_of_In; vm_compute; tauto.
  - apply list_elem_of_In. vm_compute. tauto.
Defined.

(** ** The loaders: which line aborts the run, and how *)

Lemma for_each_app {S A} (body : S → A → result S) (st : S) (xs ys : list A) :
  for_each body st (xs ++ ys)
  = for_each body st xs ≫= λ st', for_each body st' ys.
Proof.
  revert st. induction xs as [|x xs IH]; intros st; [done|].
  cbn [app for_each]. destruct (body st x) as [st'|e]; cbn; [apply IH|done].
Qed.

(** A loop whose body raises, on the elements that encode no record, an
    exception that depends on the element only: the loop raises the
    exception of the first such element. *)
Lemma for_each_first_error {S A R} (body : S → A → result S)
    (read : A → option R) (add : S → R → S) (err : A → option exn) :
  (∀ st x, match read x with
           | Some r => body st x = Ok (add st r) ∧ err x = None
           | None => ∃ e, err x = Some e ∧ body st x = Raise e
           end) →
  ∀ xs st e,
    for_each body st xs = Raise e
    ↔ ∃ pre x post, xs = pre ++ x :: post
        ∧ Forall (λ y, err y = None) pre ∧ err x = Some e.
Proof.
  intros Hbody xs. induction xs as [|x xs IH]; intros st e.
  - split; [done|]. intros (pre & y & post & H & _). by destruct pre.
  - cbn [for_each]. pose proof (Hbody st x) as Hx.
    destruct (read x) as [r|].
    + destruct Hx as [-> Herr]. cbn. rewrite IH. split.
      * intros (pre & y & post & -> & Hpre & Hy).
        exists (x :: pre), y, post. split_and!; [done| |done].
        by constructor.
      * intros (pre & y & post & Heq & Hpre & Hy).
        destruct pre as [|z pre]; simplify_eq/=.
        apply Forall_cons in Hpre as [_ Hpre]. by exists pre, y, post.
    + destruct Hx as (e' & Herr & ->). cbn. split.
      * intros [= <-]. exists [], x, xs. by split_and!.
      * intros (pre & y & post & Heq & Hpre & Hy).
        destruct pre as [|z pre]; simplify_eq/=; [done|].
        apply Forall_cons in Hpre as [Hz _]. congruence.
Qed.

Section loader_errors.

Context (max_digits : option nat).

Lemma load_nodes_line_error (st : nodes) (line : str) :
  match Spec.node_record max_digits line with
  | Some r => load_nodes_line max_digits st line = Ok (Spec.add_node st r)
              ∧ Aux.node_error max_digits line = None
  | None => ∃ e, Aux.node_error max_digits line = Some e
                 ∧ load_nodes_line max_digits st line = Raise e
  end.
Proof.
  unfold Spec.node_record, load_nodes_line, Aux.node_error, Spec.int_field.
  fold (Spec.fields line).
  destruct (fields_first line) as (f0 & fs & ->). cbn.
  destruct (Int.parse max_digits (Str.strip f0)) as [i|] eqn:Hi; cbn;
    [rewrite (int_Some _ _ _ Hi)|rewrite (int_None _ _ Hi); by eexists].
  cbn. destruct fs as [|f1 fs]; cbn; [by eexists|].
  destruct (Int.parse max_digits (Str.strip f1)) as [p|] eqn:Hp; cbn;
    [rewrite (int_Some _ _ _ Hp)|rewrite (int_None _ _ Hp); by eexists].
  cbn. destruct fs as [|f2 fs]; cbn; [by eexists|done].
Qed.

Lemma load_names_line_error (names_dict : gmap Z str) (line : str) :
  match Spec.name_record max_digits line with
  | Some r => load_names_line max_digits names_dict line
              = Ok (Spec.add_name names_dict r)
              ∧ Aux.name_error max_digits line = None
  | None => ∃ e, Aux.name_error max_digits line = Some e
                 ∧ load_names_line max_digits names_dict line = Raise e
  end.
Proof.
  unfold Spec.name_record, load_names_line, Aux.name_error, Spec.int_field.
  fold (Spec.fields line).
  destruct (fields_first line) as (f0 & fs & ->). cbn.
  destruct (Int.parse max_digits (Str.strip f0)) as [i|] eqn:Hi; cbn;
    [rewrite (int_Some _ _ _ Hi)|rewrite (int_None _ _ Hi); by eexists].
  cbn. destruct fs as [|f1 [|f2 [|f3 fs]]]; cbn; [by eexists..|].
  split; [|done]. by destruct (decide _).
Qed.

End loader_errors.

(** X5. The node loader raises exactly when some line is ill-formed, and
    the exception is that of the first such line: [ValueError] when its
    identifier is not an integer, else [IndexError] when it has one field,
    else [ValueError] when its parent is not an integer, else [IndexError]
    (two fields only). *)
Theorem load_nodes_first_error (max_digits : option nat)
    (nodes_file : list str) (e : exn) :
  load_nodes max_digits nodes_file = Raise e
  ↔ ∃ pre line post,
      nodes_file = pre ++ line :: post
      ∧ Forall (λ l, Aux.node_error max_digits l = None) pre
      ∧ Aux.node_error max_digits line = Some e.
Proof.
  apply (for_each_first_error _ _ _ _ (load_nodes_line_error max_digits)).
Qed.

(** X6. The name loader raises exactly when some line, whatever its name
    class, has an identifier that is not an integer ([ValueError]) or fewer
    than 4 fields ([IndexError]), and the exception is that of the first
    such line. *)
Theorem load_names_first_error (max_digits : option nat)
    (names_file : list str) (e : exn) :
  load_names max_digits names_file = Raise e
  ↔ ∃ pre line post,
      names_file = pre ++ line :: post
      ∧ Forall (λ l, Aux.name_error max_digits l = None) pre
      ∧ Aux.name_error max_digits line = Some e.
Proof.
  apply (for_each_first_error _ _ _ _ (load_names_line_error max_digits)).
Qed.

(** ** The mappings of the node loader agree with one another *)

Lemma load_nodes_Ok (max_digits : option nat) (nodes_file : list str)
    (st : nodes) :
  load_nodes max_digits nodes_file = Ok st →
  ∃ rs, mapM (Spec.node_record max_digits) nodes_file = Some rs
        ∧ st = foldl Spec.add_node no_nodes rs.
Proof.
  intros Hok.
  pose proof (for_each_records _ _ _ (load_nodes_line_spec max_digits)
                nodes_file no_nodes) as Hload.
  fold (load_nodes max_digits nodes_file) in Hload. rewrite Hok in Hload.
  destruct (mapM _ nodes_file) as [rs|]; [|by destruct Hload].
  exists rs. split; [done|congruence].
Qed.

Lemma load_names_Ok (max_digits : option nat) (names_file : list str)
    (names_dict : gmap Z str) :
  load_names max_digits names_file = Ok names_dict →
  ∃ rs, mapM (Spec.name_record max_digits) names_file = Some rs
        ∧ names_dict = foldl Spec.add_name ∅ rs.
Proof.
  intros Hok.
  pose proof (for_each_records _ _ _ (load_names_line_spec max_digits)
                names_file ∅) as Hload.
  fold (load_names max_digits names_file) in Hload. rewrite Hok in Hload.
  destruct (mapM _ names_file) as [rs|]; [|by destruct Hload].
  exists rs. split; [done|congruence].
Qed.

Lemma elem_of_parents_of (i p : Z) (rs : list (Z * Z * str)) :
  p ∈ Spec.parents_of i rs ↔ ∃ rank, (i, p, rank) ∈ rs.
Proof.
  unfold Spec.parents_of. rewrite list_elem_of_omap. split.
  - intros ([[j q] rank] & Hin & H). destruct (decide (j = i)); simplify_eq.
    by exists rank.
  - intros [rank Hin]. exists (i, p, rank). split; [done|].
    cbv beta iota. by rewrite decide_True.
Qed.

Lemma elem_of_ranks_of (i : Z) (rank : str) (rs : list (Z * Z * str)) :
  rank ∈ Spec.ranks_of i rs ↔ ∃ p, (i, p, rank) ∈ rs.
Proof.
  unfold Spec.ranks_of. rewrite list_elem_of_omap. split.
  - intros ([[j q] rk] & Hin & H). destruct (decide (j = i)); simplify_eq.
    by exists q.
  - intros [p Hin]. exists (i, p, rank). split; [done|].
    cbv beta iota. by rewrite decide_True.
Qed.

Lemma elem_of_children_of (c p : Z) (rs : list (Z * Z * str)) :
  c ∈ Spec.children_of p rs ↔ ∃ rank, (c, p, rank) ∈ rs.
Proof.
  unfold Spec.children_of. rewrite list_elem_of_omap. split.
  - intros ([[j q] rank] & Hin & H). destruct (decide (q = p)); simplify_eq.
    by exists rank.
  - intros [rank Hin]. exists (c, p, rank). split; [done|].
    cbv beta iota. by rewrite decide_True.
Qed.

Lemma last_is_Some_elem {A} (l : list A) : is_Some (last l) ↔ ∃ x, x ∈ l.
Proof.
  rewrite last_is_Some. destruct l as [|x l].
  - split; [done|]. by intros [? ?%elem_of_nil].
  - split; [|done]. intros _. exists x. left.
Qed.

(** The child lists of the loaded mapping, read as parent links. *)
Lemma parent_link_loaded (rs : list (Z * Z * str)) (c p : Z) :
  Spec.parent_link (children_dict (foldl Spec.add_node no_nodes rs)) c p
  ↔ ∃ rank, (c, p, rank) ∈ rs.
Proof.
  rewrite <- elem_of_children_of. unfold Spec.parent_link.
  rewrite children_dict_foldl. cbn [no_nodes children_dict].
  rewrite lookup_empty. destruct (Spec.children_of p rs) as [|x l].
  - split; [by intros (? & [=] & _)|by intros ?%elem_of_nil].
  - cbn. split; [by intros (? & [= <-] & ?)|]. intros H. by eexists.
Qed.

(** X7. In the mappings the node loader returns, the parent and the rank
    mapping have the same keys, the identifiers of the file; an identifier
    is among the children of its recorded parent; and every child in a
    list of children has a recorded parent. *)
Theorem load_nodes_consistent (max_digits : option nat)
    (nodes_file : list str) (st : nodes) :
  load_nodes max_digits nodes_file = Ok st →
  dom (parent_dict st) = dom (rank_dict st)
  ∧ (∀ c p, parent_dict st !! c = Some p →
            Spec.parent_link (children_dict st) c p)
  ∧ (∀ c p, Spec.parent_link (children_dict st) c p →
            is_Some (parent_dict st !! c) ∧ is_Some (rank_dict st !! c)).
Proof.
  intros (rs & _ & ->)%load_nodes_Ok.
  assert (Hp : ∀ i, is_Some (parent_dict (foldl Spec.add_node no_nodes rs) !! i)
                    ↔ ∃ p rank, (i, p, rank) ∈ rs).
  { intros i. rewrite parent_dict_foldl. cbn [no_nodes parent_dict].
    rewrite lookup_empty.
    replace (from_option Some None (last (Spec.parents_of i rs)))
      with (last (Spec.parents_of i rs)) by by destruct (last _).
    rewrite last_is_Some_elem. by setoid_rewrite elem_of_parents_of. }
  assert (Hr : ∀ i, is_Some (rank_dict (foldl Spec.add_node no_nodes rs) !! i)
                    ↔ ∃ p rank, (i, p, rank) ∈ rs).
  { intros i. rewrite rank_dict_foldl. cbn [no_nodes rank_dict].
    rewrite lookup_empty.
    replace (from_option Some None (last (Spec.ranks_of i rs)))
      with (last (Spec.ranks_of i rs)) by by destruct (last _).
    rewrite last_is_Some_elem. setoid_rewrite elem_of_ranks_of.
    split; intros (x & y & H); by exists y, x. }
  split_and!.
  - apply set_eq. intros i. by rewrite !elem_of_dom, Hp, Hr.
  - intros c p Hc. apply parent_link_loaded, elem_of_parents_of.
    rewrite parent_dict_foldl in Hc. cbn [no_nodes parent_dict] in Hc.
    rewrite lookup_empty in Hc.
    destruct (last (Spec.parents_of c rs)) as [q|] eqn:Hl; [|done].
    injection Hc as ->. by apply last_Some_elem_of.
  - intros c p [rank Hin]%parent_link_loaded. rewrite Hp, Hr.
    split; by exists p, rank.
Qed.

Lemma load_nodes_consistent_witness :
  ∃ st, load_nodes None Examples.nodes_file = Ok st
        ∧ dom (parent_dict st) = dom (rank_dict st)
        ∧ (∀ c p, parent_dict st !! c = Some p →
                  Spec.parent_link (children_dict st) c p).
Proof.
  assert (H : is_Ok (load_nodes None Examples.nodes_file)).
  { eexists. by vm_compute. }
  destruct H as [st Hst]. exists st. split; [done|].
  destruct (load_nodes_consistent None Examples.nodes_file st Hst)
    as (H1 & H2 & _).
  by split.
Defined.

Lemma elem_of_ids (c : Z) (rs : list (Z * Z * str)) :
  c ∈ Aux.ids rs ↔ ∃ p rank, (c, p, rank) ∈ rs.
Proof.
  unfold Aux.ids. rewrite list_elem_of_fmap. split.
  - intros ([j q] & -> & ([[j' q'] rank] & [= <- <-] & Hin)%list_elem_of_fmap).
    by exists q, rank.
  - intros (p & rank & Hin). exists (c, p). split; [done|].
    apply list_elem_of_fmap. by exists (c, p, rank).
Qed.

Lemma parents_of_unique (rs : list (Z * Z * str)) (c p : Z) (rank : str) :
  NoDup (Aux.ids rs) → (c, p, rank) ∈ rs → Spec.parents_of c rs = [p].
Proof.
  induction rs as [|[[j q] rk] rs IH]; [by intros _ ?%elem_of_nil|].
  unfold Aux.ids. cbn [fmap list_fmap fst]. fold (Aux.ids rs).
  intros [Hj Hnd]%NoDup_cons Hin. unfold Spec.parents_of. cbn [omap list_omap].
  fold (Spec.parents_of c rs).
  apply elem_of_cons in Hin as [[= <- <- <-]|Hin].
  - rewrite decide_True by done. f_equal.
    destruct (Spec.parents_of c rs) as [|x l] eqn:E; [done|].
    destruct Hj. apply elem_of_ids.
    assert (x ∈ Spec.parents_of c rs) as [r ?]%elem_of_parents_of
      by (rewrite E; left).
    by exists x, r.
  - rewrite decide_False; [by apply IH|].
    intros ->. apply Hj, elem_of_ids. by exists p, rank.
Qed.

Lemma children_of_NoDup (rs : list (Z * Z * str)) (p : Z) :
  NoDup (Aux.ids rs) → NoDup (Spec.children_of p rs).
Proof.
  induction rs as [|[[j q] rk] rs IH]; [constructor|].
  unfold Aux.ids. cbn [fmap list_fmap fst]. fold (Aux.ids rs).
  intros [Hj Hnd]%NoDup_cons. unfold Spec.children_of. cbn [omap list_omap].
  fold (Spec.children_of p rs).
  destruct (decide (q = p)) as [->|]; [|by apply IH].
  constructor; [|by apply IH].
  intros [r Hin]%elem_of_children_of. apply Hj, elem_of_ids. by exists p, r.
Qed.

(** X8. When no identifier occurs on two lines of the node file, the
    mappings describe one tree: an identifier is in the list of children of
    [p] exactly when its recorded parent is [p], and no list of children
    repeats an identifier. *)
Theorem load_nodes_unique_ids (max_digits : option nat)
    (nodes_file : list str) (st : nodes) (rs : list (Z * Z * str)) :
  load_nodes max_digits nodes_file = Ok st →
  mapM (Spec.node_record max_digits) nodes_file = Some rs →
  NoDup (Aux.ids rs) →
  (∀ c p, Spec.parent_link (children_dict st) c p
          ↔ Aux.recorded_parent (parent_dict st) c p)
  ∧ (∀ p children, children_dict st !! p = Some children → NoDup children).
Proof.
  intros (rs' & Hrs & ->)%load_nodes_Ok Hrs' Hnd.
  assert (rs' = rs) as -> by congruence.
  split.
  - intros c p. rewrite parent_link_loaded. unfold Aux.recorded_parent.
    rewrite parent_dict_foldl. cbn [no_nodes parent_dict]. rewrite lookup_empty.
    split.
    + intros [rank Hin]. by rewrite (parents_of_unique rs c p rank).
    + intros Hc. apply elem_of_parents_of.
      destruct (last (Spec.parents_of c rs)) as [q|] eqn:Hl; [|done].
      injection Hc as ->. by apply last_Some_elem_of.
  - intros p children. rewrite children_dict_foldl.
    cbn [no_nodes children_dict]. rewrite lookup_empty.
    pose proof (children_of_NoDup rs p Hnd) as Hc.
    destruct (Spec.children_of p rs); [done|]. by intros [= <-].
Qed.

Lemma load_nodes_unique_ids_witness :
  ∃ st rs,
    load_nodes None Examples.nodes_file = Ok st
    ∧ mapM (Spec.node_record None) Examples.nodes_file = Some rs
    ∧ NoDup (Aux.ids rs)
    ∧ (∀ c p, Spec.parent_link (children_dict st) c p
              ↔ Aux.recorded_parent (parent_dict st) c p).
Proof.
  assert (H1 : is_Ok (load_nodes None Examples.nodes_file)).
  { eexists. by vm_compute. }
  destruct H1 as [st Hst].
  assert (H2 : ∃ rs, mapM (Spec.node_record None) Examples.nodes_file = Some rs
                     ∧ Aux.ids rs = [1; 40674; 9689]).
  { eexists. split; by vm_compute. }
  destruct H2 as (rs & Hrs & Hids).
  assert (Hnd : NoDup (Aux.ids rs)).
  { rewrite Hids. apply NoDup_ListNoDup. repeat constructor; cbn; lia. }
  exists st, rs. split_and!; [done..|].
  apply (load_nodes_unique_ids None Examples.nodes_file st rs Hst Hrs Hnd).
Defined.

(** ** Loading a file in two parts *)

Lemma add_name_union (m : gmap Z str) (rs : list (Z * str * str)) :
  foldl Spec.add_name m rs = foldl Spec.add_name ∅ rs ∪ m.
Proof.
  apply map_eq. intros i. rewrite lookup_union, !names_dict_foldl, lookup_empty.
  destruct (last (Spec.scientific_names i rs)) as [name|]; cbn.
  - by destruct (m !! i).
  - by destruct (m !! i).
Qed.

(** X9. Loading the lines of two name files one after the other gives the
    mapping of the second file laid over that of the first: where both
    have an entry the later file decides; and it raises as soon as one of
    the two parts does. *)
Theorem load_names_app (max_digits : option nat) (file1 file2 : list str) :
  load_names max_digits (file1 ++ file2)
  = match load_names max_digits file1, load_names max_digits file2 with
    | Ok m1, Ok m2 => Ok (m2 ∪ m1)
    | Ok _, Raise e => Raise e
    | Raise e, _ => Raise e
    end.
Proof.
  pose proof (for_each_records _ _ _ (load_names_line_spec max_digits)) as H.
  unfold load_names. rewrite for_each_app.
  pose proof (H file1 ∅) as H1.
  destruct (for_each _ ∅ file1) as [m1|e1] eqn:E1; [|done].
  cbn [mbind result_bind].
  pose proof (H file2 ∅) as H2. pose proof (H file2 m1) as H3.
  destruct (mapM _ file2) as [rs2|].
  - rewrite H2, H3. f_equal. apply add_name_union.
  - destruct H2 as [e2 H2]. rewrite H2.
    pose proof (for_each_first_error _ _ _ _
      (load_names_line_error max_digits) file2) as Hfe.
    apply (Hfe ∅ e2) in H2. by apply (Hfe m1 e2) in H2.
Qed.

(** ** Descendants *)

Lemma elem_of_get_all_descendants (r d : Z) (children_dict : gmap Z (list Z)) :
  d ∈ get_all_descendants r children_dict ↔ Spec.path_up children_dict d r.
Proof.
  apply bfs_inv_exit; [apply bfs_final_inv|].
  eapply bfs_loop_queue, bfs_final_loop.
Qed.

Lemma tc_last_step {A} (R : relation A) (x z : A) :
  tc R x z → ∃ y, R y z.
Proof. induction 1 as [x z H|x y z _ _ IH]; [by exists x|done]. Qed.

Lemma tc_iff {A} (R1 R2 : relation A) :
  (∀ x y, R1 x y ↔ R2 x y) → ∀ x y, tc R1 x y ↔ tc R2 x y.
Proof.
  intros H x y. split; induction 1 as [x y Hxy|x y z Hxy _ IH].
  - apply tc_once. by apply H.
  - eapply tc_l; [by apply H|done].
  - apply tc_once. by apply H.
  - eapply tc_l; [by apply H|done].
Qed.

(** X10. The descendants of a descendant of [r] are descendants of [r]. *)
Theorem get_all_descendants_transitive (r d : Z)
    (children_dict : gmap Z (list Z)) :
  d ∈ get_all_descendants r children_dict →
  get_all_descendants d children_dict ⊆ get_all_descendants r children_dict.
Proof.
  intros Hd x Hx. apply elem_of_get_all_descendants in Hd, Hx.
  apply elem_of_get_all_descendants. unfold Spec.path_up in *.
  by etrans.
Qed.

Lemma get_all_descendants_transitive_witness :
  get_all_descendants 2 {[1 := [2]; 2 := [3; 4]]}
  ⊆ get_all_descendants 1 {[1 := [2]; 2 := [3; 4]]}.
Proof.
  apply (get_all_descendants_transitive 1 2 {[1 := [2]; 2 := [3; 4]]}).
  by vm_compute.
Defined.

(** X11. The set of descendants is empty exactly when the identifier has
    no children: it is no key of the mapping, or its list is empty. *)
Theorem get_all_descendants_empty (r : Z) (children_dict : gmap Z (list Z)) :
  get_all_descendants r children_dict = ∅
  ↔ default [] (children_dict !! r) = [].
Proof.
  split.
  - intros He. destruct (default [] (children_dict !! r)) as [|c l] eqn:Hc;
      [done|].
    assert (c ∈ get_all_descendants r children_dict) as Hin.
    { apply elem_of_get_all_descendants, tc_once, parent_link_default.
      rewrite Hc. left. }
    rewrite He in Hin. by apply elem_of_empty in Hin.
  - intros Hc. apply set_eq. intros d. rewrite elem_of_empty. split; [|done].
    intros [y Hy%parent_link_default]%elem_of_get_all_descendants%tc_last_step.
    rewrite Hc in Hy. by apply elem_of_nil in Hy.
Qed.

(** X12. Every descendant is put on the queue exactly once: the
    identifiers put on the queue after the root are the elements of the
    result, each once, so the loop runs once for the root and once for
    each descendant. *)
Theorem get_all_descendants_pushed_once (r : Z)
    (children_dict : gmap Z (list Z)) :
  ∃ appended,
    pushed (bfs_final r children_dict) = r :: appended
    ∧ appended ≡ₚ elements (get_all_descendants r children_dict)
    ∧ length (pushed (bfs_final r children_dict))
      = S (size (get_all_descendants r children_dict)).
Proof.
  destruct (Spec.inv_pushed _ _ _ (bfs_final_inv children_dict r))
    as (appended & Hp & Hnd & Happ).
  assert (Hperm : appended ≡ₚ elements (get_all_descendants r children_dict)).
  { apply NoDup_Permutation; [done|apply NoDup_elements|].
    intros x. rewrite elem_of_elements. apply Happ. }
  exists appended. split_and!; [done..|].
  rewrite Hp. cbn [length]. f_equal. by rewrite Hperm.
Qed.

(** ** Descendants in the mappings of the node loader *)

(** X13. When no identifier occurs on two lines of the node file, the
    descendants collected from the loaded children mapping are exactly the
    identifiers from which the recorded parents lead, in one or more steps,
    to the root of the query. *)
Theorem get_all_descendants_loaded (max_digits : option nat)
    (nodes_file : list str) (st : nodes) (rs : list (Z * Z * str)) (r d : Z) :
  load_nodes max_digits nodes_file = Ok st →
  mapM (Spec.node_record max_digits) nodes_file = Some rs →
  NoDup (Aux.ids rs) →
  d ∈ get_all_descendants r (children_dict st)
  ↔ tc (Aux.recorded_parent (parent_dict st)) d r.
Proof.
  intros (rs' & Hrs & ->)%load_nodes_Ok Hrs' Hnd.
  assert (rs' = rs) as -> by congruence.
  rewrite elem_of_get_all_descendants. unfold Spec.path_up.
  apply tc_iff. intros c p. rewrite parent_link_loaded.
  unfold Aux.recorded_parent.
  rewrite parent_dict_foldl. cbn [no_nodes parent_dict]. rewrite lookup_empty.
  split.
  - intros [rank Hin]. by rewrite (parents_of_unique rs c p rank).
  - intros Hc. apply elem_of_parents_of.
    destruct (last (Spec.parents_of c rs)) as [q|] eqn:Hl; [|done].
    injection Hc as ->. by apply last_Some_elem_of.
Qed.

Lemma get_all_descendants_loaded_witness :
  ∃ st rs,
    load_nodes None Examples.nodes_file = Ok st
    ∧ mapM (Spec.node_record None) Examples.nodes_file = Some rs
    ∧ NoDup (Aux.ids rs)
    ∧ (9689 ∈ get_all_descendants 40674 (children_dict st)
       ↔ tc (Aux.recorded_parent (parent_dict st)) 9689 40674).
Proof.
  assert (H1 : is_Ok (load_nodes None Examples.nodes_file)).
  { eexists. by vm_compute. }
  destruct H1 as [st Hst].
  assert (H2 : ∃ rs, mapM (Spec.node_record None) Examples.nodes_file = Some rs
                     ∧ Aux.ids rs = [1; 40674; 9689]).
  { eexists. split; by vm_compute. }
  destruct H2 as (rs & Hrs & Hids).
  assert (Hnd : NoDup (Aux.ids rs)).
  { rewrite Hids. apply NoDup_ListNoDup. repeat constructor; cbn; lia. }
  exists st, rs. split_and!; [done..|].
  apply (get_all_descendants_loaded None Examples.nodes_file st rs 40674 9689
           Hst Hrs Hnd).
Defined.

(** X14. Every descendant collected from the loaded children mapping is an
    identifier of the node file: it has a recorded parent and a rank. *)
Theorem get_all_descendants_are_nodes (max_digits : option nat)
    (nodes_file : list str) (st : nodes) (r d : Z) :
  load_nodes max_digits nodes_file = Ok st →
  d ∈ get_all_descendants r (children_dict st) →
  is_Some (parent_dict st !! d) ∧ is_Some (rank_dict st !! d).
Proof.
  intros (rs & _ & ->)%load_nodes_Ok Hd%elem_of_get_all_descendants.
  assert (∃ p, Spec.parent_link
                 (children_dict (foldl Spec.add_node no_nodes rs)) d p)
    as [p [rank Hin]%parent_link_loaded].
  { unfold Spec.path_up in Hd. destruct Hd as [d p H|d p z H _]; by exists p. }
  rewrite parent_dict_foldl, rank_dict_foldl. cbn [no_nodes parent_dict rank_dict].
  rewrite !lookup_empty.
  assert (is_Some (last (Spec.parents_of d rs))) as [q ->].
  { apply last_is_Some_elem. exists p. apply elem_of_parents_of. by exists rank. }
  assert (is_Some (last (Spec.ranks_of d rs))) as [k ->].
  { apply last_is_Some_elem. exists rank. apply elem_of_ranks_of. by exists p. }
  by split.
Qed.

Lemma get_all_descendants_are_nodes_witness :
  ∃ st, load_nodes None Examples.nodes_file = Ok st
        ∧ 9689 ∈ get_all_descendants 40674 (children_dict st)
        ∧ is_Some (parent_dict st !! 9689) ∧ is_Some (rank_dict st !! 9689).
Proof.
  assert (H1 : ∃ st, load_nodes None Examples.nodes_file = Ok st
                     ∧ 9689 ∈ get_all_descendants 40674 (children_dict st)).
  { eexists. split; by vm_compute. }
  destruct H1 as (st & Hst & Hd). exists st. split_and!; [done..| |];
    apply (get_all_descendants_are_nodes None Examples.nodes_file st 40674 9689
             Hst Hd).
Defined.

(** ** The run *)

(** X15. A run raises exactly when a loader raises, the node loader being
    tried first; the validation of the names raises nothing. *)
Theorem main_raises (max_digits : option nat) (iter : gset Z → list Z)
    (nodes_file names_file : list str) (e : exn) :
  main max_digits iter nodes_file names_file = Raise e
  ↔ load_nodes max_digits nodes_file = Raise e
    ∨ (is_Ok (load_nodes max_digits nodes_file)
       ∧ load_names max_digits names_file = Raise e).
Proof.
  rewrite main_closed_form.
  destruct (load_nodes _ _) as [st|e1]; cbn [mbind result_bind].
  - destruct (load_names _ _) as [names_dict|e2]; cbn [mbind result_bind].
    + split; [done|]. by intros [?|[_ ?]].
    + split; [intros [= ->]; right; split; [by eexists|done]|].
      intros [H|[_ H]]; [done|by injection H as ->].
  - split; [intros [= ->]; by left|].
    intros [H|[[? ?] _]]; [by injection H as ->|done].
Qed.

Lemma elem_of_species_names (rank_dict names_dict : gmap Z str)
    (ids : list Z) (name : str) :
  name ∈ Spec.species_names rank_dict names_dict ids
  ↔ ∃ d, d ∈ ids ∧ Spec.is_species rank_dict d
         ∧ Spec.name_of names_dict d = name.
Proof.
  unfold Spec.species_names. rewrite list_elem_of_fmap. split.
  - intros (d & -> & [Hs Hd]%list_elem_of_filter). by exists d.
  - intros (d & Hd & Hs & <-). exists d. split; [done|].
    by apply list_elem_of_filter.
Qed.

Lemma main_Ok (max_digits : option nat) (iter : gset Z → list Z)
    (nodes_file names_file : list str) (o : outcome) :
  main max_digits iter nodes_file names_file = Ok o →
  ∃ st names_dict,
    load_nodes max_digits nodes_file = Ok st
    ∧ load_names max_digits names_file = Ok names_dict
    ∧ o = let all :=
            Spec.species_names (rank_dict st) names_dict
              (iter (get_all_descendants MAMMALIA_TAX_ID (children_dict st))) in
          Outcome (Str.sort all) (Str.sort (filter Spec.validb all))
            ((λ name, name ++ [Char.LF]) <$> Str.sort (filter Spec.validb all)).
Proof.
  rewrite main_closed_form.
  destruct (load_nodes _ _) as [st|]; [|done]. cbn [mbind result_bind].
  destruct (load_names _ _) as [names_dict|]; [|done]. cbn [mbind result_bind].
  intros [= <-]. by exists st, names_dict.
Qed.

(** X16. The names reported are exactly the names of the descendants of
    the mammal clade whose rank is "species" (the placeholder for those
    without a scientific name), and the confirmed names are exactly those
    of them the validator accepts. *)
Theorem main_names (max_digits : option nat) (iter : gset Z → list Z)
    (nodes_file names_file : list str) (o : outcome) :
  Spec.set_order iter →
  main max_digits iter nodes_file names_file = Ok o →
  ∃ st names_dict,
    load_nodes max_digits nodes_file = Ok st
    ∧ load_names max_digits names_file = Ok names_dict
    ∧ ∀ name,
        (name ∈ all_sorted o
         ↔ ∃ d, d ∈ get_all_descendants MAMMALIA_TAX_ID (children_dict st)
                ∧ rank_dict st !! d = Some ("species" : str)
                ∧ default ("Unknown" : str) (names_dict !! d) = name)
        ∧ (name ∈ valid_sorted o
           ↔ name ∈ all_sorted o ∧ is_valid_species_name name = Ok true).
Proof.
  intros Hiter (st & names_dict & Hst & Hnames & ->)%main_Ok.
  exists st, names_dict. split_and!; [done..|]. intros name.
  cbv zeta. cbn [all_sorted valid_sorted].
  rewrite !sort_perm, list_elem_of_filter, elem_of_species_names.
  split.
  - by setoid_rewrite (Hiter _); setoid_rewrite elem_of_elements.
  - rewrite (validb_Ok name). unfold Is_true.
    destruct (Spec.validb name); split; intros [? ?]; try done; by split.
Qed.

Lemma main_names_witness :
  Spec.set_order elements
  ∧ ∃ st names_dict,
      load_nodes None Examples.mixed_nodes_file = Ok st
      ∧ load_names None Examples.mixed_names_file = Ok names_dict
      ∧ ∀ name,
          (name ∈ all_sorted Examples.mixed_outcome
           ↔ ∃ d, d ∈ get_all_descendants MAMMALIA_TAX_ID (children_dict st)
                  ∧ rank_dict st !! d = Some ("species" : str)
                  ∧ default ("Unknown" : str) (names_dict !! d) = name)
          ∧ (name ∈ valid_sorted Examples.mixed_outcome
             ↔ name ∈ all_sorted Examples.mixed_outcome
               ∧ is_valid_species_name name = Ok true).
Proof.
  assert (Horder : Spec.set_order elements) by (intros s; reflexivity).
  split; [exact Horder|].
  exact (main_names None elements Examples.mixed_nodes_file
           Examples.mixed_names_file _ Horder mixed_run).
Defined.

Lemma length_sort (l : list str) : length (Str.sort l) = length l.
Proof. apply Permutation_length, sort_perm. Qed.

(** X17. Every line written to the output file is a name the validator
    accepts followed by a line feed, and there is one line for each
    confirmed name; the placeholder "Unknown" is never written. *)
Theorem main_written (max_digits : option nat) (iter : gset Z → list Z)
    (nodes_file names_file : list str) (o : outcome) :
  main max_digits iter nodes_file names_file = Ok o →
  length (written o) = length (valid_sorted o)
  ∧ (∀ line, line ∈ written o →
       ∃ name, line = name ++ [Char.LF]
               ∧ is_valid_species_name name = Ok true)
  ∧ (("Unknown" : str) ∉ valid_sorted o)
  ∧ (("Unknown" : str) ++ [Char.LF]) ∉ written o.
Proof.
  intros (st & names_dict & _ & _ & ->)%main_Ok.
  cbv zeta. cbn [written valid_sorted].
  set (all := Spec.species_names _ _ _).
  assert (Hvalid : ∀ name, name ∈ Str.sort (filter Spec.validb all) →
                           is_valid_species_name name = Ok true).
  { intros name. rewrite sort_perm. intros [Hv _]%list_elem_of_filter.
    rewrite (validb_Ok name). by destruct (Spec.validb name). }
  split_and!.
  - by rewrite length_fmap.
  - intros line (name & -> & Hin)%list_elem_of_fmap. exists name.
    split; [done|by apply Hvalid].
  - intros Hin%Hvalid. by vm_compute in Hin.
  - intros (name & Heq & Hin%Hvalid)%list_elem_of_fmap.
    apply app_inj_tail in Heq as [<- _]. by vm_compute in Hin.
Qed.

Lemma main_written_witness :
  length (written Examples.mixed_outcome)
  = length (valid_sorted Examples.mixed_outcome)
  ∧ (∀ line, line ∈ written Examples.mixed_outcome →
       ∃ name, line = name ++ [Char.LF]
               ∧ is_valid_species_name name = Ok true)
  ∧ (("Unknown" : str) ∉ valid_sorted Examples.mixed_outcome)
  ∧ (("Unknown" : str) ++ [Char.LF]) ∉ written Examples.mixed_outcome.
Proof.
  exact (main_written None elements Examples.mixed_nodes_file
           Examples.mixed_names_file _ mixed_run).
Defined.

(** X18. The counts of the summary: the number of species names is the
    number of descendants of the mammal clade whose rank is "species", and
    the names not confirmed, the difference the summary prints as
    excluded, are those the validator rejects. *)
Theorem main_counts (max_digits : option nat) (iter : gset Z → list Z)
    (nodes_file names_file : list str) (o : outcome) :
  Spec.set_order iter →
  main max_digits iter nodes_file names_file = Ok o →
  (∃ st, load_nodes max_digits nodes_file = Ok st
         ∧ length (all_sorted o)
           = length (filter (Spec.is_species (rank_dict st))
                       (elements (get_all_descendants MAMMALIA_TAX_ID
                                    (children_dict st)))))
  ∧ (length (valid_sorted o) ≤ length (all_sorted o))%nat
  ∧ (length (all_sorted o) - length (valid_sorted o))%nat
    = length (filter (λ name, ¬ Spec.validb name) (all_sorted o)).
Proof.
  intros Hiter (st & names_dict & Hst & _ & ->)%main_Ok.
  cbv zeta. cbn [all_sorted valid_sorted].
  set (D := get_all_descendants MAMMALIA_TAX_ID (children_dict st)).
  set (all := Spec.species_names (rank_dict st) names_dict (iter D)).
  assert (Hsplit : (length (filter Spec.validb all)
                    + length (filter (λ name, ¬ Spec.validb name) all)
                    = length all)%nat).
  { rewrite <- length_app. apply Permutation_length, filter_app_complement. }
  assert (Hrej : length (filter (λ name, ¬ Spec.validb name) (Str.sort all))
                 = length (filter (λ name, ¬ Spec.validb name) all)).
  { apply Permutation_length. by rewrite sort_perm. }
  rewrite Hrej, !length_sort. split_and!.
  - exists st. split; [done|]. unfold all, Spec.species_names.
    by rewrite length_fmap, (Hiter D).
  - lia.
  - lia.
Qed.

Lemma main_counts_witness :
  Spec.set_order elements
  ∧ (length (valid_sorted Examples.mixed_outcome)
     ≤ length (all_sorted Examples.mixed_outcome))%nat
  ∧ (length (all_sorted Examples.mixed_outcome)
     - length (valid_sorted Examples.mixed_outcome))%nat
    = length (filter (λ name, ¬ Spec.validb name)
                (all_sorted Examples.mixed_outcome)).
Proof.
  assert (Horder : Spec.set_order elements) by (intros s; reflexivity).
  split; [exact Horder|].
  destruct (main_counts None elements Examples.mixed_nodes_file
              Examples.mixed_names_file _ Horder mixed_run) as (_ & H2 & H3).
  by split.
Defined.

(** ** Stripped fields *)

Lemma lstrip_by_head (p : ascii → bool) (s : str) (c : ascii) :
  head (Str.lstrip_by p s) = Some c → p c = false.
Proof.
  induction s as [|a s IH]; cbn [Str.lstrip_by]; [done|].
  destruct (p a) eqn:Ha; [done|]. by intros [= <-].
Qed.

Lemma lstrip_by_suffix (p : ascii → bool) (s : str) :
  Str.lstrip_by p s `suffix_of` s.
Proof.
  induction s as [|a s IH]; cbn [Str.lstrip_by]; [done|].
  destruct (p a); [by apply suffix_cons_r|done].
Qed.

Lemma rstrip_by_last (p : ascii → bool) (s : str) (c : ascii) :
  last (Str.rstrip_by p s) = Some c → p c = false.
Proof.
  unfold Str.rstrip_by. rewrite last_reverse. apply lstrip_by_head.
Qed.

Lemma rstrip_by_prefix (p : ascii → bool) (s : str) :
  Str.rstrip_by p s `prefix_of` s.
Proof.
  unfold Str.rstrip_by.
  destruct (lstrip_by_suffix p (reverse s)) as [k Hk].
  exists (reverse k). apply (inj reverse).
  by rewrite reverse_app, !reverse_involutive.
Qed.

(** [s.strip()] neither starts nor ends with white space. *)
Lemma strip_ends (s : str) (c : ascii) :
  (head (Str.strip s) = Some c → Char.isspace c = false)
  ∧ (last (Str.strip s) = Some c → Char.isspace c = false).
Proof.
  unfold Str.strip. split; [|apply rstrip_by_last].
  destruct (rstrip_by_prefix Char.isspace (Str.lstrip_by Char.isspace s))
    as [k Hk].
  destruct (Str.rstrip_by _ _) as [|a t]; [done|].
  intros [= ->]. apply (lstrip_by_head Char.isspace s). by rewrite Hk.
Qed.

Lemma name_record_stripped (max_digits : option nat) (line : str)
    (i : Z) (name class : str) :
  Spec.name_record max_digits line = Some (i, name, class) →
  ∃ field, name = Str.strip field.
Proof.
  unfold Spec.name_record.
  destruct (Spec.int_field _ _ _); [|done]. cbn.
  destruct (Spec.fields line !! 1%nat) as [f1|]; [|done]. cbn.
  destruct (Spec.fields line !! 3%nat); [|done]. cbn.
  intros [= _ <- _]. by exists f1.
Qed.

(** X19. No name in the mapping the name loader returns starts or ends
    with white space. *)
Theorem load_names_stripped (max_digits : option nat) (names_file : list str)
    (names_dict : gmap Z str) (i : Z) (name : str) (c : ascii) :
  load_names max_digits names_file = Ok names_dict →
  names_dict !! i = Some name →
  (head name = Some c → Char.isspace c = false)
  ∧ (last name = Some c → Char.isspace c = false).
Proof.
  intros (rs & Hrs & ->)%load_names_Ok Hi.
  rewrite names_dict_foldl, lookup_empty in Hi.
  destruct (last (Spec.scientific_names i rs)) as [n|] eqn:Hl; [|done].
  injection Hi as ->.
  apply last_Some_elem_of, elem_of_scientific_names in Hl.
  apply mapM_Some in Hrs.
  apply list_elem_of_lookup in Hl as [k Hk].
  destruct (Forall2_lookup_r _ _ _ _ _ Hrs Hk) as (line & _ & Hline).
  apply name_record_stripped in Hline as [field ->]. apply strip_ends.
Qed.

Lemma load_names_stripped_witness :
  load_names None Examples.names_file = Ok {[9689 := ("Panthera leo" : str)]}
  ∧ (head ("Panthera leo" : str) = Some "P"%char
     → Char.isspace "P" = false)
  ∧ (last ("Panthera leo" : str) = Some "P"%char
     → Char.isspace "P" = false).
Proof.
  assert (H : load_names None Examples.names_file
              = Ok {[9689 := ("Panthera leo" : str)]}) by by vm_compute.
  split; [exact H|].
  apply (load_names_stripped None Examples.names_file _ 9689 _ "P"%char H).
  by vm_compute.
Defined.
